(** * Epsilon-tunnel rewriting passes of quantlib: a shallow embedding

  The development follows the Python sources

  - [editing/editing/fake2true/epstunnels/remover/finder.py]
  - [editing/editing/fake2true/epstunnels/simplifier/applier.py]
  - [newediting/editing/faketotrue/epstunnels/epstunnelremover.py]
  - [algorithms/pact/pact_ops.py]
  - [editing/graphs/fx/tracing.py]

  A [torch.fx] graph module is a mutable object; the rewriting code reads
  and mutates it in place.  It is modelled as an explicit state that is
  threaded through a small state-and-exception monad. *)

From Stdlib Require Import ZArith Floats.SpecFloat.
From stdpp Require Import gmap strings list fin_maps fin_sets.

(** ** Tensors *)

Module Torch.

(** The elements are IEEE-754 values compared the way [==] compares them
    ([nan] differs from itself, the two zeros are equal). *)
Definition feq (x y : spec_float) : bool := SFeqb x y.

(** The double [1.0]: mantissa [2^52], exponent [-52]. *)
Definition one : spec_float := S754_finite false 4503599627370496 (-52).
(** The double [0.5]. *)
Definition half : spec_float := S754_finite false 4503599627370496 (-53).

(** A tensor is its shape together with its elements in row-major
    order. *)
Record Tensor : Type := mkTensor {
  shape : list nat;
  data : list spec_float
}.

Definition prod_of (s : list nat) : nat := foldr Nat.mul 1 s.

(** [t.numel()] is the product of the shape. *)
Definition numel (t : Tensor) : nat := prod_of (shape t).

(** The shape accounts for the data. *)
Definition well_shaped (t : Tensor) : Prop := numel t = length (data t).

(** [torch.tensor([x, ...])], of shape [(n,)]. *)
Definition vec (l : list spec_float) : Tensor := mkTensor [length l] l.

(** [torch.ones_like(t)] *)
Definition ones_like (t : Tensor) : Tensor :=
  mkTensor (shape t) ((λ _, one) <$> data t).

(** [torch.zeros_like(t)] *)
Definition zeros_like (t : Tensor) : Tensor :=
  mkTensor (shape t) ((λ _, S754_zero false) <$> data t).

(** [torch.all(t == c)] for a Python scalar [c], which is compared with
    every element whatever the shape. *)
Definition all_eq_scalar (t : Tensor) (c : spec_float) : bool :=
  forallb (λ x, feq x c) (data t).

(** Two sequences of elements agree position by position. *)
Fixpoint all_eq_same (a b : list spec_float) : bool :=
  match a, b with
  | [], [] => true
  | x :: a', y :: b' => feq x y && all_eq_same a' b'
  | _, _ => false
  end.

(** *** Broadcasting

    The shapes of the two operands of [==] are aligned at the last
    dimension and compared from there backwards: two sizes go together
    when they are equal or one of them is [1], and a dimension that one
    side lacks counts as [1].  [broadcast_rev] works on the reversed
    shapes. *)
Fixpoint broadcast_rev (s1 s2 : list nat) : option (list nat) :=
  match s1, s2 with
  | [], s => Some s
  | s, [] => Some s
  | a :: s1', b :: s2' =>
      if bool_decide (a = b) then (a ::.) <$> broadcast_rev s1' s2'
      else if bool_decide (a = 1) then (b ::.) <$> broadcast_rev s1' s2'
      else if bool_decide (b = 1) then (a ::.) <$> broadcast_rev s1' s2'
      else None
  end.

(** [torch.broadcast_shapes(s1, s2)]; [None] when the shapes do not go
    together. *)
Definition broadcast_shapes (s1 s2 : list nat) : option (list nat) :=
  reverse <$> broadcast_rev (reverse s1) (reverse s2).

(** The elements of a tensor of shape [s] once it is expanded to the
    shape [target] of the same number of dimensions: along a dimension
    of equal size the rows are expanded one by one, along a dimension of
    size [1] the single row is expanded and repeated. *)
Fixpoint broadcast_to (s target : list nat) (d : list spec_float)
    : list spec_float :=
  match s, target with
  | a :: s', t :: target' =>
      let row i :=
        broadcast_to s' target' (take (prod_of s') (drop (i * prod_of s') d)) in
      if bool_decide (a = t) then concat (row <$> seq 0 a)
      else concat (replicate t (row 0))
  | _, _ => d
  end.

(** Dimensions of size [1] are added in front until the tensor has as
    many as the target. *)
Definition expand_to (target : list nat) (t : Tensor) : list spec_float :=
  broadcast_to (replicate (length target - length (shape t)) 1 ++ shape t)
               target (data t).

(** Shapes that [==] accepts. *)
Definition broadcastable (a b : Tensor) : bool :=
  bool_decide (is_Some (broadcast_shapes (shape a) (shape b))).

(** [torch.all(a == b)]: both tensors are expanded to the common shape
    and compared position by position; [None] stands for the
    [RuntimeError] that torch raises on shapes that cannot be
    broadcast. *)
Definition all_eq (a b : Tensor) : option bool :=
  match broadcast_shapes (shape a) (shape b) with
  | Some s => Some (all_eq_same (expand_to s a) (expand_to s b))
  | None => None
  end.

End Torch.

(** ** Graph modules *)

Module Fx.
Import Torch.

Inductive opcode : Type :=
| placeholder | get_attr | call_function | call_method | call_module | output.

#[global] Instance opcode_eq_dec : EqDecision opcode.
Proof. solve_decision. Defined.

(** An [fx.Node].  Nodes are Python objects compared by identity; a graph
    gives every node a unique [name], which is the reference used here.
    [args] lists the nodes used as inputs (arguments and keyword
    arguments together), with repetitions.  [target] is the qualified
    name that the node refers to; for a [call_function] node it is the
    name of the function. *)
Record Node : Type := mkNode {
  name : string;
  op : opcode;
  target : string;
  args : list string
}.

(** The Python value [n.target].  [fx.Node.__init__] takes a callable as
    the target of a [call_function] node and a string as the target of a
    node of any other opcode. *)
Inductive pytarget : Type :=
| Str (s : string)
| Callable (f : string).

Definition target_of (n : Node) : pytarget :=
  if decide (op n = call_function) then Callable (target n)
  else Str (target n).

(** The submodules a graph module owns.  Only [EpsTunnel] is looked into;
    every other [nn.Module] is [Other].  The class [EpsTunnel] is declared
    outside the files at hand; as the spec has it, a tunnel holds the two
    tensors [eps_in] and [eps_out], readable and writable. *)
Inductive Module : Type :=
| EpsTunnel (eps_in eps_out : Tensor)
| Other.

(** The submodules are kept by qualified name, [a.b] for the submodule
    [b] of the submodule [a]; what a graph module owns is closed under
    prefixes. *)
Record GraphModule : Type := mkGraphModule {
  nodes : list Node;               (* g.graph.nodes, in graph order *)
  modules : gmap string Module     (* submodules by qualified name *)
}.

(** [k] is the qualified name [s] or the name of a module below it. *)
Definition below (s k : string) : bool :=
  bool_decide (k = s) || String.prefix (s +:+ ".") k.

(** The submodule that [n.target] names, if the graph module owns one
    under that name; a callable names none. *)
Definition submodule_of (g : GraphModule) (n : Node) : option Module :=
  match target_of n with
  | Str s => modules g !! s
  | Callable _ => None
  end.

(** [isinstance(m, EpsTunnel)] *)
Definition is_EpsTunnel (m : Module) : bool :=
  match m with EpsTunnel _ _ => true | Other => false end.

(** Modelled from the spec: the opcode classes of [FXOpcodeClasses]
    (and [FXOPCODE_CALL_MODULE]), which the repository declares outside
    the files at hand.  The spec lists the classification
    placeholder / call-module / output. *)
Definition PLACEHOLDER : list opcode := [placeholder].
Definition OUTPUT : list opcode := [output].
Definition CALL_MODULE : list opcode := [call_module].

(** [n.all_input_nodes]: the distinct nodes among the inputs.  The code
    at hand reads how many there are and, when there is one, which. *)
Definition all_input_nodes (n : Node) : list string := remove_dups (args n).

(** [n.users] for the node named [x]: the nodes of the graph that have
    it among their inputs. *)
Definition users (g : GraphModule) (x : string) : list Node :=
  filter (λ m, x ∈ args m) (nodes g).

Definition find_node (g : GraphModule) (x : string) : option Node :=
  snd <$> list_find (λ m, name m = x) (nodes g).

(** *** What [Graph.lint] checks

    Names are unique and every input is defined earlier in the graph
    (topological order); every [call_module] target resolves to a
    submodule.  [Graph.lint] also follows the targets of [get_attr]
    nodes, through attributes that are not kept here. *)
Fixpoint topological (seen : list string) (l : list Node) : bool :=
  match l with
  | [] => true
  | n :: l' =>
      bool_decide (name n ∉ seen)
      && forallb (λ a, bool_decide (a ∈ seen)) (args n)
      && topological (name n :: seen) l'
  end.

Definition targets_resolve (g : GraphModule) : bool :=
  forallb (λ n, negb (bool_decide (op n ∈ CALL_MODULE))
                || bool_decide (is_Some (modules g !! target n)))
          (nodes g).

Definition lint (g : GraphModule) : bool :=
  topological [] (nodes g) && targets_resolve g.

(** The two tensors of every tunnel can be compared: their shapes can
    be broadcast. *)
Definition eps_comparable (g : GraphModule) : Prop :=
  map_Forall (λ _ m, match m with
                     | EpsTunnel ei eo => broadcastable ei eo = true
                     | Other => True
                     end) (modules g).

#[global] Instance eps_comparable_dec g : Decision (eps_comparable g).
Proof.
  unfold eps_comparable. apply map_Forall_dec.
  intros _ [ei eo|]; apply _.
Defined.

End Fx.

(** ** The monad of graph-mutating code *)

Module Eff.
Import Fx.

Inductive exn : Type := AssertionError | AttributeError | RuntimeError.

Inductive result (A : Type) : Type :=
| Ok (a : A)
| Raise (e : exn).
Arguments Ok {A} a.
Arguments Raise {A} e.

(** A computation takes the graph module as it is and yields a value or
    an exception, together with the graph module as it has become.  On
    an exception the state is the one reached when it was raised. *)
Definition M (A : Type) : Type := GraphModule → result A * GraphModule.

Definition ret {A} (a : A) : M A := λ g, (Ok a, g).

Definition bind {A B} (c : M A) (k : A → M B) : M B :=
  λ g, match c g with
       | (Ok a, g') => k a g'
       | (Raise e, g') => (Raise e, g')
       end.

Definition raise {A} (e : exn) : M A := λ g, (Raise e, g).

(** The graph module [g] that the Python code has at hand. *)
Definition get : M GraphModule := λ g, (Ok g, g).

(** [assert b] *)
Definition py_assert (b : bool) : M unit :=
  if b then ret tt else raise AssertionError.

Notation "'let*' x := c 'in' k" := (bind c (λ x, k))
  (at level 10, x name, c at level 100, k at level 200,
   format "'let*'  x  :=  c  'in' '//' k").
Notation "c ;; k" := (bind c (λ _, k))
  (at level 100, k at level 200, right associativity).

(** [list(filter(p, l))] for a predicate that reads the graph module and
    may raise: the elements are tested in order. *)
Fixpoint filterM {A} (p : A → M bool) (l : list A) : M (list A) :=
  match l with
  | [] => ret []
  | x :: l' =>
      let* b := p x in
      let* r := filterM p l' in
      ret (if b then x :: r else r)
  end.

(** Each step of a [for] loop in turn. *)
Fixpoint forM_ {A} (l : list A) (body : A → M unit) : M unit :=
  match l with
  | [] => ret tt
  | x :: l' => body x ;; forM_ l' body
  end.

(** [tuple(map(f, l))] *)
Fixpoint mapM {A B} (f : A → M B) (l : list A) : M (list B) :=
  match l with
  | [] => ret []
  | x :: l' =>
      let* y := f x in
      let* r := mapM f l' in
      ret (y :: r)
  end.

(** *** Primitives of the graph substrate *)

(** [g.get_submodule(target=t)] splits [t] at the dots and follows the
    path: [AttributeError] when [t] is not a string, and when nothing is
    registered under [t]. *)
Definition get_submodule (t : pytarget) : M Module :=
  λ g, match t with
       | Str s =>
           match modules g !! s with
           | Some m => (Ok m, g)
           | None => (Raise AttributeError, g)
           end
       | Callable _ => (Raise AttributeError, g)
       end.

(** Dereference of a module object held by the caller, named by the key
    under which the graph module owns it. *)
Definition module_ref (t : string) : M Module :=
  λ g, match modules g !! t with
       | Some m => (Ok m, g)
       | None => (Raise AttributeError, g)
       end.

(** Dereference of a node held by the caller.  The references that the
    code below holds come from the graph itself; one that is not in the
    graph has no counterpart here and raises. *)
Definition node_ref (x : string) : M Node :=
  λ g, match find_node g x with
       | Some n => (Ok n, g)
       | None => (Raise RuntimeError, g)
       end.

(** [d.replace_input_with(old, new)] *)
Definition replace_input (old new : string) (n : Node) : Node :=
  mkNode (name n) (op n) (target n)
         ((λ a, if decide (a = old) then new else a) <$> args n).

Definition replace_input_with (d old new : string) : M unit :=
  λ g, (Ok tt,
        mkGraphModule
          ((λ m, if decide (name m = d) then replace_input old new m else m)
             <$> nodes g)
          (modules g)).

(** [g.delete_submodule(t)] starts with [t.split(".")], which raises
    [AttributeError] when [t] is not a string.  Otherwise the attribute
    that the path leads to is deleted, and with the module everything
    below it; when the path leads to no module nothing is deleted.  The
    Boolean it returns is not used. *)
Definition delete_submodule (t : pytarget) : M unit :=
  λ g, match t with
       | Str s =>
           (Ok tt,
            mkGraphModule (nodes g)
              (filter (λ kv, below s kv.1 = false) (modules g)))
       | Callable _ => (Raise AttributeError, g)
       end.

(** [g.graph.erase_node(n)]: refuses a node that still has users. *)
Definition erase_node (x : string) : M unit :=
  λ g, match users g x with
       | [] => (Ok tt,
                mkGraphModule (filter (λ m, name m ≠ x) (nodes g)) (modules g))
       | _ :: _ => (Raise RuntimeError, g)
       end.

(** [m.set_eps_in(v)] and [m.set_eps_out(v)] on the module registered
    under [t], the mutators that the spec lists for a tunnel; a module
    that is not a tunnel has no such method. *)
Definition set_eps_in (t : string) (v : Torch.Tensor) : M unit :=
  λ g, match modules g !! t with
       | Some (EpsTunnel _ eo) =>
           (Ok tt, mkGraphModule (nodes g) (<[t := EpsTunnel v eo]> (modules g)))
       | _ => (Raise AttributeError, g)
       end.

Definition set_eps_out (t : string) (v : Torch.Tensor) : M unit :=
  λ g, match modules g !! t with
       | Some (EpsTunnel ei _) =>
           (Ok tt, mkGraphModule (nodes g) (<[t := EpsTunnel ei v]> (modules g)))
       | _ => (Raise AttributeError, g)
       end.

End Eff.

(** ** [EpsTunnelRemoverFinder] (editing/.../remover/finder.py) *)

Module Remover.
Import Torch Fx Eff.

(** The application point [EpsTunnelNode(n)] holds the node. *)
Record EpsTunnelNode : Type := mkEpsTunnelNode { node : string }.

(** A module that is not a tunnel has no [eps_in]; tensors of shapes
    that cannot be broadcast cannot be compared. *)
Definition is_identity_epstunnel (n : Node) : M bool :=
  let* m := get_submodule (target_of n) in
  match m with
  | EpsTunnel ei eo =>
      match all_eq ei eo with
      | Some b => ret b
      | None => raise RuntimeError
      end
  | Other => raise AttributeError
  end.

(** After the assertion [next(iter(...))] finds a node; [and] reads
    [m.eps_out] only when the predecessor is a placeholder. *)
Definition is_integerised_placeholder (n : Node) : M bool :=
  py_assert (bool_decide (length (all_input_nodes n) = 1)) ;;
  let* predecessor :=
    match all_input_nodes n with
    | p :: _ => node_ref p
    | [] => raise RuntimeError
    end in
  let* m := get_submodule (target_of n) in
  if bool_decide (op predecessor ∈ PLACEHOLDER) then
    match m with
    | EpsTunnel _ eo => ret (all_eq_scalar eo one)
    | Other => raise AttributeError
    end
  else ret false.

(** [False] for a node whose only user is an output node. *)
Definition is_output_node (x : string) : M bool :=
  let* g := get in
  match users g x with
  | [u] => if bool_decide (op u ∈ OUTPUT) then ret false else ret true
  | _ => ret true
  end.

(** [list(set(l))] lists the elements of the set once each, in an order
    of the set's own. *)
Definition find : M (list EpsTunnelNode) :=
  let* g := get in
  let module_nodes := filter (λ n, op n ∈ CALL_MODULE) (nodes g) in
  let* epstunnels :=
    filterM (λ n, let* m := get_submodule (target_of n) in
                  ret (is_EpsTunnel m))
            module_nodes in
  let* identitytunnels := filterM is_identity_epstunnel epstunnels in
  let* integerisedplhl := filterM is_integerised_placeholder epstunnels in
  let ls : list string :=
    elements (list_to_set (name <$> (identitytunnels ++ integerisedplhl))
              : gset string) in
  let* not_output_node := filterM is_output_node ls in
  ret (mkEpsTunnelNode <$> not_output_node).

Definition check_aps_commutativity (aps : list EpsTunnelNode) : bool :=
  bool_decide
    (length aps = size (list_to_set (node <$> aps) : gset string)).

End Remover.

(** ** [EpsTunnelRemover] (newediting/.../epstunnelremover.py) *)

Module NewRemover.
Import Torch Fx Eff.

(** [ApplicationPoint(rewriter=self, graph=g, apcore=a)]: the rewriter is
    the one at hand and the graph is the state; [apcore] is the node. *)
Record ApplicationPoint : Type := mkApplicationPoint { apcore : string }.

(** Modelled from the spec: [nnmodule_from_fxnode], declared outside the
    files at hand, is the node-to-owned-submodule resolution by target
    name of the graph substrate. *)
Definition nnmodule_from_fxnode (n : Node) : M Module :=
  get_submodule (target_of n).

Definition find (force : bool) : M (list ApplicationPoint) :=
  let* g := get in
  let* apcores :=
    if force return M (list Node) then
      filterM (λ n : Node,
               if bool_decide (op n ∈ CALL_MODULE) then
                 let* m := nnmodule_from_fxnode n in ret (is_EpsTunnel m)
               else ret false)
              (nodes g)
    else
      filterM (λ n : Node,
               if bool_decide (op n ∈ CALL_MODULE) then
                 let* m := nnmodule_from_fxnode n in
                 match m return M bool with
                 | EpsTunnel ei eo =>
                     match all_eq ei eo with
                     | Some b => ret b
                     | None => raise RuntimeError
                     end
                 | Other => ret false
                 end
               else ret false)
              (nodes g) in
  ret ((λ a, mkApplicationPoint (name a)) <$> apcores).

(** The body is [pass]. *)
Definition _check_aps (aps : list ApplicationPoint) : M unit := ret tt.

(** [next(iter(s))] of a set that holds one element. *)
Definition next_iter (s : gset string) : M string :=
  match elements s with
  | x :: _ => ret x
  | [] => raise RuntimeError
  end.

(** The Python function returns [g], the object it was given; here the
    graph module that results is the state. *)
Definition _apply (ap : ApplicationPoint) : M unit :=
  let* n := node_ref (apcore ap) in
  let upstream_nodes : gset string := list_to_set (all_input_nodes n) in
  py_assert (bool_decide (size upstream_nodes = 1)) ;;
  let* un := next_iter upstream_nodes in
  let* g := get in
  let downstream_nodes : gset string :=
    list_to_set (name <$> users g (name n)) in
  py_assert (bool_decide (size downstream_nodes = 1)) ;;
  let* dn := next_iter downstream_nodes in
  replace_input_with dn (name n) un ;;
  delete_submodule (target_of n) ;;
  erase_node (name n).

End NewRemover.

(** ** [EpsTunnelConstructApplier] (editing/.../simplifier/applier.py) *)

Module Construct.
Import Torch Fx Eff.

(** A construct: the tunnels entering it and the tunnels leaving it. *)
Record CandidateEpsTunnelConstruct : Type := mkConstruct {
  backward : list string;
  forward : list string
}.

(** [tuple(map(lambda n: g.get_submodule(target=n.target), l))]: the
    tuple holds the module objects themselves, named here by the key
    under which the graph module owns them. *)
Definition submodules_of (l : list string) : M (list string) :=
  mapM (λ x, let* n := node_ref x in
             let* _ := get_submodule (target_of n) in
             ret (target n)) l.

(** The two loops that print read [all_input_nodes] and [users] of the
    nodes and leave the graph module as it is; they are left out. *)
Definition _apply (ap : CandidateEpsTunnelConstruct) : M unit :=
  let* inbound_eps_tunnels := submodules_of (backward ap) in
  forM_ inbound_eps_tunnels
    (λ t, let* m := module_ref t in
          match m with
          | EpsTunnel _ eo => set_eps_out t (ones_like eo)
          | Other => raise AttributeError
          end) ;;
  let* outbound_eps_tunnels := submodules_of (forward ap) in
  forM_ outbound_eps_tunnels
    (λ t, let* m := module_ref t in
          match m with
          | EpsTunnel ei _ => set_eps_in t (ones_like ei)
          | Other => raise AttributeError
          end).

End Construct.

(** ** [PACTUnsignedAct] (algorithms/pact/pact_ops.py) *)

Module Pact.
Import Torch.

Inductive pyerr : Type :=
| AssertionError (msg : string)
| IndexError.

Inductive pyresult (A : Type) : Type :=
| Ok (a : A)
| Raise (e : pyerr).
Arguments Ok {A} a.
Arguments Raise {A} e.

(** The message is built before the assertion is tested; it reads
    [valid_values[-1]] unless the list has a single element. *)
Definition error_str (cls value param_name : string)
    (valid_values : list string) : pyresult string :=
  let head := "[" +:+ cls +:+ "]  Invalid argument " +:+ param_name
              +:+ ": Got " +:+ value +:+ ", expected " in
  match valid_values with
  | [] => Raise IndexError
  | [v] => Ok (head +:+ v)
  | _ :: _ :: _ =>
      Ok (head +:+ String.concat ", " (removelast valid_values)
               +:+ " or " +:+ List.last valid_values "")
  end.

Definition assert_param_valid (cls value param_name : string)
    (valid_values : list string) : pyresult unit :=
  match error_str cls value param_name valid_values with
  | Raise e => Raise e
  | Ok msg =>
      if bool_decide (value ∈ valid_values) then Ok tt
      else Raise (AssertionError msg)
  end.

(** The attributes of a [PACTUnsignedAct]. *)
Record PACTUnsignedAct : Type := mkPACTUnsignedAct {
  n_levels : Z;
  clip_hi : Tensor;
  act_kind : string;
  init_clip : string;
  nb_std : spec_float;
  leaky : spec_float;
  started : bool;
  max : Tensor;
  min : Tensor;
  running_mean : Tensor;
  running_var : Tensor
}.

(** The activation that [forward] applies to its input. *)
Inductive kernel : Type :=
| relu
| relu6
| leaky_relu (slope : spec_float)
| unchanged
| quantize.

Section Lower.

(** [str.lower] *)
Variable lower : string → string.

Definition __init__ (n_levels : Z) (init_clip : string) (learn_clip : bool)
    (act_kind : string) (leaky nb_std : spec_float)
    : pyresult PACTUnsignedAct :=
  let act_kind := lower act_kind in
  let init_clip := lower init_clip in
  match assert_param_valid "PACTUnsignedAct" act_kind "act_kind"
          ["relu"; "relu6"; "leaky_relu"] with
  | Raise e => Raise e
  | Ok _ =>
      match assert_param_valid "PACTUnsignedAct" init_clip "init_clip"
              ["max"; "std"; "const"] with
      | Raise e => Raise e
      | Ok _ =>
          let clip_hi := vec [one] in
          Ok {| n_levels := n_levels;
                clip_hi := clip_hi;
                act_kind := act_kind;
                init_clip := init_clip;
                nb_std := nb_std;
                leaky := leaky;
                started := false;
                max := zeros_like clip_hi;
                min := zeros_like clip_hi;
                running_mean := zeros_like clip_hi;
                running_var := ones_like clip_hi |}
      end
  end.

End Lower.

(** The branch that [forward] takes.  While statistics are collected
    the input goes through the activation that [act_kind] names, and
    stays as it is when no name matches; once started, the input is
    quantized. *)
Definition forward_kernel (self : PACTUnsignedAct) : kernel :=
  if negb (started self) then
    if bool_decide (act_kind self = "relu") then relu
    else if bool_decide (act_kind self = "relu6") then relu6
    else if bool_decide (act_kind self = "leaky_relu") then
           leaky_relu (leaky self)
    else unchanged
  else quantize.

(** The controller switches [started] on and off. *)
Definition set_started (b : bool) (self : PACTUnsignedAct) : PACTUnsignedAct :=
  mkPACTUnsignedAct (n_levels self) (clip_hi self) (act_kind self)
    (init_clip self) (nb_std self) (leaky self) b (max self) (min self)
    (running_mean self) (running_var self).

(** Lower case of the ASCII letters, for examples. *)
Fixpoint ascii_lower (s : string) : string :=
  match s with
  | EmptyString => EmptyString
  | String c s' =>
      let n := Ascii.nat_of_ascii c in
      String (if bool_decide (65 ≤ n ≤ 90) then Ascii.ascii_of_nat (n + 32)
              else c)
             (ascii_lower s')
  end.

End Pact.

(** ** [PACTAsymmetricAct] (algorithms/pact/pact_ops.py) *)

Module PactAsym.
Import Torch.

(** The values that the constructor stores as attributes. *)
Inductive pyval : Type :=
| VInt (z : Z)
| VFloat (x : spec_float)
| VStr (s : string)
| VBool (b : bool)
| VParameter (data : Tensor) (requires_grad : bool)
| VDict (items : list (string * string)).   (* key, attribute it refers to *)

Inductive pyerr : Type :=
| AssertionError (msg : string)
| IndexError
| AttributeError (attr : string).

Inductive pyresult (A : Type) : Type :=
| Ok (a : A)
| Raise (e : pyerr).
Arguments Ok {A} a.
Arguments Raise {A} e.

(** The module under construction is the store of its attributes:
    [self.a = v] adds to it, [self.a] reads it, and reading an attribute
    that was never set raises [AttributeError] ([nn.Module.__getattr__]
    finds nothing under that name). *)
Definition Obj (A : Type) : Type :=
  gmap string pyval → pyresult A * gmap string pyval.

Definition ret {A} (a : A) : Obj A := λ self, (Ok a, self).

Definition bind {A B} (c : Obj A) (k : A → Obj B) : Obj B :=
  λ self, match c self with
          | (Ok a, self') => k a self'
          | (Raise e, self') => (Raise e, self')
          end.

#[local] Notation "'let*' x := c 'in' k" := (bind c (λ x, k))
  (at level 10, x name, c at level 100, k at level 200).
#[local] Notation "c ;; k" := (bind c (λ _, k))
  (at level 100, k at level 200, right associativity).

Definition setattr (a : string) (v : pyval) : Obj unit :=
  λ self, (Ok tt, <[a := v]> self).

Definition getattr (a : string) : Obj pyval :=
  λ self, match self !! a with
          | Some v => (Ok v, self)
          | None => (Raise (AttributeError a), self)
          end.

(** [p.data] of a parameter. *)
Definition data_of (v : pyval) : Obj Tensor :=
  match v with
  | VParameter d _ => ret d
  | _ => λ self, (Raise (AttributeError "data"), self)
  end.

(** A call of [assert_param_valid], whose exceptions propagate. *)
Definition check (r : Pact.pyresult unit) : Obj unit :=
  λ self, match r with
          | Pact.Ok _ => (Ok tt, self)
          | Pact.Raise (Pact.AssertionError msg) => (Raise (AssertionError msg), self)
          | Pact.Raise Pact.IndexError => (Raise IndexError, self)
          end.

(** The double [-1.0]. *)
Definition minus_one : spec_float := S754_finite true 4503599627370496 (-52).

Section Lower.

(** [str.lower] *)
Variable lower : string → string.

Definition __init__ (n_levels : Z) (init_clip : string) (learn_clip : bool)
    (act_kind : string) (leaky : spec_float) (symm : bool)
    (nb_std : spec_float) : Obj unit :=
  let act_kind := lower act_kind in
  let init_clip := lower init_clip in
  check (Pact.assert_param_valid "PACTAsymmetricAct" act_kind "act_kind"
           ["identity"; "relu"; "relu6"; "leaky_relu"]) ;;
  check (Pact.assert_param_valid "PACTAsymmetricAct" init_clip "init_clip"
           ["max"; "std"; "const"]) ;;
  setattr "n_levels" (VInt n_levels) ;;
  setattr "clip_lo" (VParameter (vec [minus_one]) learn_clip) ;;
  setattr "clip_hi" (VParameter (vec [one]) (learn_clip && negb symm)) ;;
  setattr "clipping_params" (VDict [("low", "clip_lo"); ("high", "clip_hi")]) ;;
  setattr "act_kind" (VStr act_kind) ;;
  setattr "leaky" (VFloat leaky) ;;
  setattr "init_clip" (VStr init_clip) ;;
  setattr "nb_std" (VFloat nb_std) ;;
  setattr "symm" (VBool symm) ;;
  setattr "started" (VBool false) ;;
  let* alpha := getattr "alpha" in
  let* d := data_of alpha in
  setattr "max" (VParameter (zeros_like d) false) ;;
  let* alpha := getattr "alpha" in
  let* d := data_of alpha in
  setattr "min" (VParameter (zeros_like d) false) ;;
  let* alpha := getattr "alpha" in
  let* d := data_of alpha in
  setattr "running_mean" (VParameter (zeros_like d) false) ;;
  let* alpha := getattr "alpha" in
  let* d := data_of alpha in
  setattr "running_var" (VParameter (ones_like d) false).

(** [PACTAsymmetricAct(...)]: [__init__] on a module that has no
    attribute yet. *)
Definition construct (n_levels : Z) (init_clip : string) (learn_clip : bool)
    (act_kind : string) (leaky : spec_float) (symm : bool)
    (nb_std : spec_float) : pyresult unit * gmap string pyval :=
  __init__ n_levels init_clip learn_clip act_kind leaky symm nb_std ∅.

End Lower.

End PactAsym.

(** ** [expand_bounds] of the PACT layers (algorithms/pact/pact_ops.py) *)

Module PactLayers.
Import Torch.

(** [torch.reshape(t, s)]: the number of elements must stay. *)
Definition reshape (t : Tensor) (s : list nat) : Eff.result Tensor :=
  if bool_decide (prod_of s = numel t) then Eff.Ok (mkTensor s (data t))
  else Eff.Raise Eff.RuntimeError.

(** [torch.cat(l)] of tensors of one dimension; an empty list is
    refused. *)
Definition cat (l : list Tensor) : Eff.result Tensor :=
  match l with
  | [] => Eff.Raise Eff.RuntimeError
  | _ :: _ => Eff.Ok (mkTensor [sum_list (numel <$> l)] (concat (data <$> l)))
  end.

(** The body that the three [expand_bounds] methods share; they differ in
    the shape they reshape to, [(n, 1, 1, 1)], [(n, 1, 1)] and [(n, 1)]. *)
Definition expand (quantize : string) (n : nat) (trailing : list nat)
    (t : Tensor) : Eff.result Tensor :=
  if bool_decide (quantize = "per_channel") then
    match (if bool_decide (numel t = 1) then
             match reshape t [1] with
             | Eff.Ok t1 => cat (replicate n t1)
             | Eff.Raise e => Eff.Raise e
             end
           else Eff.Ok t) with
    | Eff.Ok t2 => reshape t2 (n :: trailing)
    | Eff.Raise e => Eff.Raise e
    end
  else Eff.Ok t.

(** [PACTConv2d.expand_bounds] *)
Definition PACTConv2d_expand_bounds (quantize : string) (out_channels : nat) :=
  expand quantize out_channels [1; 1; 1].

(** [PACTConv1d.expand_bounds] *)
Definition PACTConv1d_expand_bounds (quantize : string) (out_channels : nat) :=
  expand quantize out_channels [1; 1].

(** [PACTLinear.expand_bounds] *)
Definition PACTLinear_expand_bounds (quantize : string) (out_features : nat) :=
  expand quantize out_features [1].

End PactLayers.

(** ** The tracers (editing/graphs/fx/tracing.py) *)

Module Tracing.

(** An [nn.Module] as [isinstance] sees it: the names of its class and of
    the classes that one inherits from. *)
Record NnModule : Type := mkNnModule { mro : list string }.

(** [isinstance(m, types)] for a tuple of classes. *)
Definition isinstance (m : NnModule) (types : list string) : bool :=
  existsb (λ t, bool_decide (t ∈ mro m)) types.

Inductive pyerr : Type := ValueError | TypeError.

Inductive pyresult (A : Type) : Type :=
| Ok (a : A)
| Raise (e : pyerr).
Arguments Ok {A} a.
Arguments Raise {A} e.

Record CustomTracer : Type := mkCustomTracer { _leaf_types : list string }.

(** [CustomTracer.__init__], once [fx.Tracer.__init__] has returned. *)
Definition CustomTracer_init (leaf_types : list string)
    : pyresult CustomTracer :=
  if bool_decide (length leaf_types = 0) then Raise ValueError
  else Ok (mkCustomTracer leaf_types).

Section Base.

(** [fx.Tracer.is_leaf_module], the check of the base class. *)
Variable fxtracer_is_leaf_module : NnModule → string → bool.

Definition is_leaf_module (self : CustomTracer) (m : NnModule)
    (module_qualified_name : string) : bool :=
  let fxtracer_cond := fxtracer_is_leaf_module m module_qualified_name in
  let custom_cond := isinstance m (_leaf_types self) in
  fxtracer_cond || custom_cond.

End Base.

Definition quantlib_leaf_types : list string :=
  ["_QModule"; "EpsTunnel"; "Requantisation";
   "AnalogAccumulator"; "AnalogGaussianNoise"].

(** [QuantLibTracer.__init__] *)
Definition QuantLibTracer_init (other_leaf_types : list string)
    : pyresult CustomTracer :=
  let leaf_types := quantlib_leaf_types ++ other_leaf_types in
  CustomTracer_init leaf_types.

(** *** Calls

    A function whose parameters can all be given by position or by
    keyword is called with positional arguments and keyword arguments;
    the call fails with [TypeError] when there are too many positional
    arguments, when a keyword names no parameter or one that a positional
    argument has filled, or when a parameter without default is left
    out. *)
Section Calls.

Variable V : Type.

Definition bind_args (params : list string) (defaults : gmap string V)
    (pos : list V) (kw : gmap string V) : option (gmap string V) :=
  if bool_decide (length pos ≤ length params) then
    let by_position : gmap string V := list_to_map (zip params pos) in
    if bool_decide (dom kw ⊆@{gset string} list_to_set params)
       && bool_decide (dom kw ##@{gset string} dom by_position) then
      let env := by_position ∪ kw ∪ defaults in
      if bool_decide (list_to_set params ⊆@{gset string} dom env)
      then Some env else None
    else None
  else None.

Variable R : Type.

(** [functools.partial(f, **kw0)]: the keywords of the call are added to
    the stored ones, and prevail. *)
Definition partial (f : list V → gmap string V → R) (kw0 : gmap string V)
    : list V → gmap string V → R :=
  λ pos kw, f pos (kw ∪ kw0).

(** What the body of [custom_symbolic_trace] computes from its three
    arguments ([tracer.trace] and [fx.GraphModule]). *)
Variable trace_body : V → V → V → R.
Variable type_error : R.
Variable none : V.

Definition custom_symbolic_trace (pos : list V) (kw : gmap string V) : R :=
  match bind_args ["tracer"; "root"; "concrete_args"]
          {[ "concrete_args" := none ]} pos kw with
  | Some env =>
      match env !! "tracer", env !! "root", env !! "concrete_args" with
      | Some tracer, Some root, Some concrete_args =>
          trace_body tracer root concrete_args
      | _, _, _ => type_error
      end
  | None => type_error
  end.

(** [quantlib_symbolic_trace], for the tracer [QuantLibTracer()] made
    when the module is loaded. *)
Definition quantlib_symbolic_trace (the_tracer : V)
    : list V → gmap string V → R :=
  partial custom_symbolic_trace {[ "tracer" := the_tracer ]}.

End Calls.

End Tracing.

(** * The vocabulary of the statements *)

Import Torch Fx Eff.

(** The two tensors have one shape and every element of the first
    equals the element of the second at the same position. *)
Definition elementwise_equal (a b : Tensor) : Prop :=
  shape a = shape b ∧ Forall2 (λ x y, feq x y = true) (data a) (data b).

(** [torch.all(a == b)] is computed and holds. *)
Definition torch_equal (a b : Tensor) : Prop := all_eq a b = Some true.

(** All elements are [1.0]. *)
Definition all_ones (t : Tensor) : Prop :=
  Forall (λ x, feq x one = true) (data t).

(** A computation that leaves the graph module as it found it, whether
    it returns or raises. *)
Definition readonly {A} (c : M A) : Prop := ∀ g, (c g).2 = g.

(** A [call_module] node whose target is a tunnel whose tensors satisfy
    [P]. *)
Definition on_tunnel (g : GraphModule)
    (P : Torch.Tensor → Torch.Tensor → Prop) (n : Node) : Prop :=
  op n = call_module
  ∧ match modules g !! target n with
    | Some (EpsTunnel ei eo) => P ei eo
    | _ => False
    end.

#[global] Instance on_tunnel_dec g P `{∀ a b, Decision (P a b)} n :
  Decision (on_tunnel g P n).
Proof.
  unfold on_tunnel. apply and_dec; [apply _|].
  destruct (modules g !! target n) as [[ei eo|]|]; apply _.
Defined.

#[global] Instance elementwise_equal_dec a b : Decision (elementwise_equal a b).
Proof. unfold elementwise_equal. apply _. Defined.

#[global] Instance torch_equal_dec a b : Decision (torch_equal a b).
Proof. unfold torch_equal. apply _. Defined.

(** A [call_module] node whose target is an [EpsTunnel]. *)
Definition is_tunnel_node (g : GraphModule) : Node → Prop :=
  on_tunnel g (λ _ _, True).


(** A tunnel node on which [torch.all(eps_in == eps_out)] holds. *)
Definition passes_identity_test (g : GraphModule) : Node → Prop :=
  on_tunnel g torch_equal.

(** The two tensors of every tunnel are well shaped and have one and
    the same shape. *)
Definition eps_same_shape (g : GraphModule) : Prop :=
  map_Forall (λ _ m, match m with
                     | EpsTunnel ei eo =>
                         well_shaped ei ∧ well_shaped eo ∧ shape ei = shape eo
                     | Other => True
                     end) (modules g).

#[global] Instance eps_same_shape_dec g : Decision (eps_same_shape g).
Proof.
  unfold eps_same_shape, well_shaped. apply map_Forall_dec.
  intros _ [ei eo|]; apply _.
Defined.

(** ** Sample graphs *)

Module Samples.
Import Torch Fx.

(** [input -> TunnelA(0.5, 0.5) -> output] *)
Definition tunnel_a : Node := mkNode "tunnel_a" call_module "tunnel_a" ["x"].

Definition gA : GraphModule :=
  mkGraphModule
    [ mkNode "x" placeholder "x" [];
      tunnel_a;
      mkNode "output" output "output" ["tunnel_a"] ]
    {[ "tunnel_a" := EpsTunnel (vec [half]) (vec [half]) ]}.

(** [input -> TunnelB(1.0, 1.0) -> ReLU -> output] *)
Definition tunnel_b : Node := mkNode "tunnel_b" call_module "tunnel_b" ["x"].

Definition gB : GraphModule :=
  mkGraphModule
    [ mkNode "x" placeholder "x" [];
      tunnel_b;
      mkNode "relu" call_module "relu" ["tunnel_b"];
      mkNode "output" output "output" ["relu"] ]
    {[ "tunnel_b" := EpsTunnel (vec [one]) (vec [one]); "relu" := Other ]}.

(** The graph [gB] once the tunnel is spliced out. *)
Definition gB_spliced : GraphModule :=
  mkGraphModule
    [ mkNode "x" placeholder "x" [];
      mkNode "relu" call_module "relu" ["x"];
      mkNode "output" output "output" ["relu"] ]
    {[ "relu" := Other ]}.

(** [input -> TunnelC(0.5, 1.0) -> ReLU -> TunnelD -> output]: the first
    tunnel rescales an integerised input, the second is an identity with
    one [0.5] per channel, of shape [(1, 2, 1, 1)], next to the
    output. *)
Definition gC : GraphModule :=
  mkGraphModule
    [ mkNode "x" placeholder "x" [];
      mkNode "tunnel_c" call_module "tunnel_c" ["x"];
      mkNode "relu" call_module "relu" ["tunnel_c"];
      mkNode "tunnel_d" call_module "tunnel_d" ["relu"];
      mkNode "output" output "output" ["tunnel_d"] ]
    {[ "tunnel_c" := EpsTunnel (vec [half]) (vec [one]);
       "relu" := Other;
       "tunnel_d" := EpsTunnel (mkTensor [1; 2; 1; 1] [half; half])
                             (mkTensor [1; 2; 1; 1] [half; half]) ]}.

(** [input -> TunnelE(1.0, 1.0) -> ReLU, Sigmoid -> add -> output]:
    the tunnel has two users. *)
Definition tunnel_e : Node := mkNode "tunnel_e" call_module "tunnel_e" ["x"].

Definition gD : GraphModule :=
  mkGraphModule
    [ mkNode "x" placeholder "x" [];
      tunnel_e;
      mkNode "relu" call_module "relu" ["tunnel_e"];
      mkNode "sigmoid" call_module "sigmoid" ["tunnel_e"];
      mkNode "add" call_function "add" ["relu"; "sigmoid"];
      mkNode "output" output "output" ["add"] ]
    {[ "tunnel_e" := EpsTunnel (vec [one]) (vec [one]);
       "relu" := Other; "sigmoid" := Other ]}.

(** [TunnelF(0.5, 0.5)(1.0) -> ReLU -> output]: the tunnel is called on
    a constant and has no input node. *)
Definition tunnel_f : Node := mkNode "tunnel_f" call_module "tunnel_f" [].

Definition gF : GraphModule :=
  mkGraphModule
    [ tunnel_f;
      mkNode "relu" call_module "relu" ["tunnel_f"];
      mkNode "output" output "output" ["relu"] ]
    {[ "tunnel_f" := EpsTunnel (vec [half]) (vec [half]); "relu" := Other ]}.

(** [input -> Tunnel -> ReLU -> Tunnel -> Sigmoid -> output], where the
    two tunnel nodes call one and the same submodule [(0.5, 0.5)]. *)
Definition gE : GraphModule :=
  mkGraphModule
    [ mkNode "x" placeholder "x" [];
      mkNode "tunnel_1" call_module "tunnel" ["x"];
      mkNode "relu" call_module "relu" ["tunnel_1"];
      mkNode "tunnel_2" call_module "tunnel" ["relu"];
      mkNode "sigmoid" call_module "sigmoid" ["tunnel_2"];
      mkNode "output" output "output" ["sigmoid"] ]
    {[ "tunnel" := EpsTunnel (vec [half]) (vec [half]);
       "relu" := Other; "sigmoid" := Other ]}.

(** [input -> Tunnel -> output] where the graph module owns no submodule
    under the tunnel's target. *)
Definition gG : GraphModule :=
  mkGraphModule
    [ mkNode "x" placeholder "x" [];
      mkNode "tunnel_g" call_module "tunnel_g" ["x"];
      mkNode "relu" call_module "relu" ["tunnel_g"];
      mkNode "output" output "output" ["relu"] ]
    {[ "relu" := Other ]}.

(** [x, y -> add -> TunnelH(1.0, 1.0) -> mul(t, t) -> output]: the
    tunnel has one input node, fed by two placeholders, and one user that
    takes it twice. *)
Definition tunnel_h : Node := mkNode "tunnel_h" call_module "tunnel_h" ["add"].

Definition gD2 : GraphModule :=
  mkGraphModule
    [ mkNode "x" placeholder "x" [];
      mkNode "y" placeholder "y" [];
      mkNode "add" call_function "add" ["x"; "y"];
      tunnel_h;
      mkNode "mul" call_function "mul" ["tunnel_h"; "tunnel_h"];
      mkNode "output" output "output" ["mul"] ]
    {[ "tunnel_h" := EpsTunnel (vec [one]) (vec [one]) ]}.

(** [input -> TunnelC(0.5, 0.5) -> ReLU -> TunnelG -> output] where the
    graph module owns no submodule under the second tunnel's target. *)
Definition gH : GraphModule :=
  mkGraphModule
    [ mkNode "x" placeholder "x" [];
      mkNode "tunnel_c" call_module "tunnel_c" ["x"];
      mkNode "relu" call_module "relu" ["tunnel_c"];
      mkNode "tunnel_g" call_module "tunnel_g" ["relu"];
      mkNode "output" output "output" ["tunnel_g"] ]
    {[ "tunnel_c" := EpsTunnel (vec [half]) (vec [half]); "relu" := Other ]}.

(** [input -> TunnelK -> ReLU -> output] where [eps_in] is
    [(1.0, 0.5)] of shape [(2,)] and [eps_out] holds the same two
    elements in shape [(2, 1)]: [==] broadcasts both to [(2, 2)]. *)
Definition gK : GraphModule :=
  mkGraphModule
    [ mkNode "x" placeholder "x" [];
      mkNode "tunnel_k" call_module "tunnel_k" ["x"];
      mkNode "relu" call_module "relu" ["tunnel_k"];
      mkNode "output" output "output" ["relu"] ]
    {[ "tunnel_k" := EpsTunnel (vec [one; half]) (mkTensor [2; 1] [one; half]);
       "relu" := Other ]}.


(** [TunnelW(1.0) -> ReLU -> output]: the tunnel is called on a constant
    and has no input node, and its tensors have the shapes [(2,)] and
    [(3,)]. *)
Definition gW : GraphModule :=
  mkGraphModule
    [ mkNode "tunnel_w" call_module "tunnel_w" [];
      mkNode "relu" call_module "relu" ["tunnel_w"];
      mkNode "output" output "output" ["relu"] ]
    {[ "tunnel_w" := EpsTunnel (vec [half; half]) (vec [half; half; half]);
       "relu" := Other ]}.

(** [input -> neg -> ReLU -> output], where [neg] is a [call_function]
    node. *)
Definition neg : Node := mkNode "neg" call_function "neg" ["x"].

Definition gN : GraphModule :=
  mkGraphModule
    [ mkNode "x" placeholder "x" [];
      neg;
      mkNode "relu" call_module "relu" ["neg"];
      mkNode "output" output "output" ["relu"] ]
    {[ "relu" := Other ]}.

(** [input -> blk -> blk.inner -> output]: the second node calls a
    submodule of the module that the first one calls. *)
Definition blk : Node := mkNode "blk" call_module "blk" ["x"].

Definition gM : GraphModule :=
  mkGraphModule
    [ mkNode "x" placeholder "x" [];
      blk;
      mkNode "blk_inner" call_module "blk.inner" ["blk"];
      mkNode "output" output "output" ["blk_inner"] ]
    {[ "blk" := Other; "blk.inner" := Other ]}.

End Samples.

(** The lists that the constructor of [PACTUnsignedAct] checks against. *)
Definition valid_act_kinds : list string := ["relu"; "relu6"; "leaky_relu"].
Definition valid_init_clips : list string := ["max"; "std"; "const"].

(** The application point that [EpsTunnelRemover.find] makes of a node. *)
Definition ap_of (n : Node) : NewRemover.ApplicationPoint :=
  NewRemover.mkApplicationPoint (name n).

(** The single input of [n] is a placeholder. *)
Definition placeholder_input (g : GraphModule) (n : Node) : Prop :=
  match all_input_nodes n with
  | [p] => match find_node g p with
           | Some pn => op pn ∈ PLACEHOLDER
           | None => False
           end
  | _ => False
  end.

#[global] Instance placeholder_input_dec g n : Decision (placeholder_input g n).
Proof.
  unfold placeholder_input.
  destruct (all_input_nodes n) as [|p [|? ?]]; try apply _.
  destruct (find_node g p); apply _.
Defined.

#[global] Instance all_ones_dec t : Decision (all_ones t).
Proof. unfold all_ones. apply _. Defined.

(** The tunnel takes a graph input and its [eps_out] is [1.0]. *)
Definition is_integerised_placeholder_node (g : GraphModule) (n : Node) : Prop :=
  placeholder_input g n ∧ on_tunnel g (λ _ eo, all_ones eo) n.

(** The only user of the node named [x] is an output node. *)
Definition feeds_output_only (g : GraphModule) (x : string) : Prop :=
  match users g x with
  | [u] => op u ∈ OUTPUT
  | _ => False
  end.

#[global] Instance feeds_output_only_dec g x : Decision (feeds_output_only g x).
Proof.
  unfold feeds_output_only. destruct (users g x) as [|u [|? ?]]; apply _.
Defined.

(** Every tunnel node has exactly one input node. *)
Definition single_input (g : GraphModule) : Prop :=
  Forall (λ n, is_tunnel_node g n → length (all_input_nodes n) = 1) (nodes g).

#[global] Instance single_input_dec g : Decision (single_input g).
Proof. unfold single_input, is_tunnel_node. apply _. Defined.

(** The tunnel nodes, in graph order. *)
Definition tunnels (g : GraphModule) : list Node :=
  filter (is_tunnel_node g) (filter (λ n, op n ∈ CALL_MODULE) (nodes g)).

(** The names [find] wraps into application points. *)
Definition selected (g : GraphModule) : list string :=
  filter (λ x, ¬ feeds_output_only g x)
    (elements
       (list_to_set
          (name <$> (filter (passes_identity_test g) (tunnels g)
                     ++ filter (is_integerised_placeholder_node g) (tunnels g)))
        : gset string)).

(** The node [m] with [new] in the place of every input [old]. *)
Definition rewired (old new : string) (m : Node) : Node :=
  mkNode (name m) (op m) (target m)
         ((λ a, if decide (a = old) then new else a) <$> args m).

(** The graph module once the node [n] is spliced out: the user named
    [d] takes [p] wherever it took [n], the node is gone and so is its
    submodule with everything below it. *)
Definition spliced (g : GraphModule) (n : Node) (p d : string) : GraphModule :=
  mkGraphModule
    ((λ m, if decide (name m = d) then rewired (name n) p m else m)
       <$> filter (λ m, name m ≠ name n) (nodes g))
    (filter (λ kv, below (target n) kv.1 = false) (modules g)).

(** The submodule names that the nodes [l] target. *)
Definition targets (g : GraphModule) (l : list string) : list string :=
  omap (λ x, target <$> find_node g x) l.

(** Every node of [l] is in the graph and its target names a tunnel. *)
Definition tunnel_refs (g : GraphModule) (l : list string) : Prop :=
  Forall (λ x, match find_node g x with
               | Some n => match submodule_of g n with
                           | Some (EpsTunnel _ _) => True
                           | _ => False
                           end
               | None => False
               end) l.

#[global] Instance tunnel_refs_dec g l : Decision (tunnel_refs g l).
Proof.
  unfold tunnel_refs. apply Forall_dec. intros x.
  destruct (find_node g x) as [n|]; [|apply _].
  destruct (submodule_of g n) as [[]|]; apply _.
Defined.

(** The store once the tunnels [B] have [eps_out] set to ones and the
    tunnels [F] have [eps_in] set to ones. *)
Definition reconcile (B F : list string) (t : string) (m : Module) : Module :=
  match m with
  | EpsTunnel ei eo =>
      EpsTunnel (if decide (t ∈ F) then ones_like ei else ei)
                (if decide (t ∈ B) then ones_like eo else eo)
  | Other => Other
  end.

(** No other [call_module] node calls the submodule that [n] calls or a
    submodule below it. *)
Definition sole_caller (g : GraphModule) (n : Node) : Prop :=
  Forall (λ m, op m = call_module → below (target n) (target m) = true →
               name m = name n)
         (nodes g).

#[global] Instance sole_caller_dec g n : Decision (sole_caller g n).
Proof. unfold sole_caller. apply _. Defined.

(** Some [call_module] node of the graph calls a submodule that the graph
    module does not own. *)
Definition dangling_target (g : GraphModule) : Prop :=
  Exists (λ n, op n = call_module ∧ modules g !! target n = None) (nodes g).

#[global] Instance dangling_target_dec g : Decision (dangling_target g).
Proof. unfold dangling_target. apply _. Defined.

(** Every node of [l] is in the graph. *)
Definition nodes_exist (g : GraphModule) (l : list string) : Prop :=
  Forall (λ x, is_Some (find_node g x)) l.

#[global] Instance nodes_exist_dec g l : Decision (nodes_exist g l).
Proof. unfold nodes_exist. apply _. Defined.

(** Some node of [l] calls a submodule that the graph module does not
    own. *)
Definition missing_target (g : GraphModule) (l : list string) : Prop :=
  Exists (λ x, match find_node g x with
               | Some n => modules g !! target n = None
               | None => False
               end) l.

#[global] Instance missing_target_dec g l : Decision (missing_target g l).
Proof.
  unfold missing_target. apply Exists_dec. intros x.
  destruct (find_node g x); apply _.
Defined.

(** The activation kinds that the constructor of [PACTAsymmetricAct]
    checks against. *)
Definition valid_asym_act_kinds : list string :=
  ["identity"; "relu"; "relu6"; "leaky_relu"].

(** * Properties *)

(** ** Sets of names and tensors *)

Section SetFacts.

Lemma size_list_to_set_le (l : list string) :
  size (list_to_set l : gset string) ≤ length l.
Proof.
  induction l as [|x l IH]; simpl length.
  - by rewrite list_to_set_nil, size_empty.
  - rewrite list_to_set_cons. destruct (decide (x ∈ l)) as [Hin|Hin].
    + rewrite (subseteq_union_1_L (C:=gset string) {[x]}).
      * lia.
      * by apply singleton_subseteq_l, elem_of_list_to_set.
    + rewrite size_union, size_singleton; [lia|].
      by apply disjoint_singleton_l; rewrite elem_of_list_to_set.
Qed.

Lemma size_list_to_set_NoDup (l : list string) :
  size (list_to_set l : gset string) = length l ↔ NoDup l.
Proof.
  split; [|apply size_list_to_set].
  induction l as [|x l IH]; simpl length; intros Hsz; [constructor|].
  rewrite list_to_set_cons in Hsz.
  destruct (decide (x ∈ l)) as [Hin|Hin].
  - rewrite (subseteq_union_1_L (C:=gset string) {[x]}) in Hsz
      by by apply singleton_subseteq_l, elem_of_list_to_set.
    pose proof (size_list_to_set_le l). lia.
  - rewrite size_union, size_singleton in Hsz
      by by apply disjoint_singleton_l; rewrite elem_of_list_to_set.
    constructor; [done|]. apply IH. lia.
Qed.

Lemma singleton_list_to_set (x : string) :
  size (list_to_set [x] : gset string) = 1
  ∧ elements (list_to_set [x] : gset string) = [x].
Proof.
  rewrite list_to_set_singleton_L, size_singleton, elements_singleton. done.
Qed.

End SetFacts.

Section TensorFacts.
Import Torch.









Lemma all_ones_scalar t : all_eq_scalar t one = true ↔ all_ones t.
Proof.
  unfold all_ones, all_eq_scalar. rewrite forallb_forall, Forall_forall.
  split; intros H x Hx; apply H; by apply list_elem_of_In.
Qed.

Lemma all_ones_ones_like t : all_ones (ones_like t).
Proof. apply Forall_fmap, Forall_forall. intros x _. done. Qed.

Lemma shape_ones_like t : shape (ones_like t) = shape t.
Proof. done. Qed.

Lemma length_ones_like t : length (data (ones_like t)) = length (data t).
Proof. apply length_fmap. Qed.

Lemma all_eq_broadcastable a b :
  broadcastable a b = true → ∃ r, all_eq a b = Some r.
Proof.
  unfold broadcastable, all_eq. intros [s ->]%bool_decide_eq_true. eauto.
Qed.

(** With different shapes the comparison is between all pairs that
    broadcasting puts together: the elements [(1.0, 0.5)] in the shapes
    [(2,)] and [(2, 1)] do not compare equal, and the shapes [(2,)] and
    [(3,)] do not go together. *)
Example all_eq_broadcasts :
  all_eq (vec [one; half]) (mkTensor [2; 1] [one; half]) = Some false
  ∧ all_eq (vec [half]) (mkTensor [1; 2; 1; 1] [half; half]) = Some true
  ∧ all_eq (vec [half; half]) (vec [half; half; half]) = None.
Proof. by vm_compute. Qed.

End TensorFacts.

(** ** Running monadic code *)

Section EffFacts.
Import Fx Eff.

Lemma readonly_ret {A} (a : A) : readonly (ret a).
Proof. done. Qed.

Lemma readonly_raise {A} e : readonly (raise (A:=A) e).
Proof. done. Qed.

Lemma readonly_get : readonly get.
Proof. done. Qed.

Lemma readonly_py_assert b : readonly (py_assert b).
Proof. by destruct b. Qed.

Lemma readonly_get_submodule t : readonly (get_submodule t).
Proof.
  intros g. unfold get_submodule.
  destruct t as [s|f]; [by destruct (modules g !! s)|done].
Qed.

Lemma readonly_module_ref t : readonly (module_ref t).
Proof. intros g. unfold module_ref. by destruct (modules g !! t). Qed.

Lemma target_of_str n : op n ≠ call_function → target_of n = Str (target n).
Proof. intros Hop. unfold target_of. by rewrite decide_False. Qed.

Lemma target_of_call_module n :
  op n = call_module → target_of n = Str (target n).
Proof. intros Hop. apply target_of_str. by rewrite Hop. Qed.

Lemma target_of_callable n :
  op n = call_function → target_of n = Callable (target n).
Proof. intros Hop. unfold target_of. by rewrite decide_True. Qed.

Lemma submodule_of_call_module g n :
  op n = call_module → submodule_of g n = modules g !! target n.
Proof. intros Hop. unfold submodule_of. by rewrite target_of_call_module. Qed.

Lemma get_submodule_node g n :
  get_submodule (target_of n) g
  = match submodule_of g n with
    | Some m => (Ok m, g)
    | None => (Raise AttributeError, g)
    end.
Proof. unfold get_submodule, submodule_of. by destruct (target_of n). Qed.

Lemma get_submodule_call_module g n :
  op n = call_module →
  get_submodule (target_of n) g
  = match modules g !! target n with
    | Some m => (Ok m, g)
    | None => (Raise AttributeError, g)
    end.
Proof.
  intros Hop. by rewrite get_submodule_node, submodule_of_call_module.
Qed.

Lemma readonly_node_ref x : readonly (node_ref x).
Proof. intros g. unfold node_ref. by destruct (find_node g x). Qed.

Lemma readonly_bind {A B} (c : M A) (k : A → M B) :
  readonly c → (∀ a, readonly (k a)) → readonly (bind c k).
Proof.
  intros Hc Hk g. unfold bind. specialize (Hc g).
  destruct (c g) as [[a|e] g']; simpl in *; subst; [apply Hk|done].
Qed.

Lemma readonly_filterM {A} (p : A → M bool) l :
  (∀ x, readonly (p x)) → readonly (filterM p l).
Proof.
  intros Hp. induction l as [|x l IH]; simpl; [apply readonly_ret|].
  apply readonly_bind; [apply Hp|]. intros b.
  apply readonly_bind; [apply IH|]. intros r. apply readonly_ret.
Qed.

Lemma bind_ok {A B} (c : M A) (k : A → M B) g a g' :
  c g = (Ok a, g') → bind c k g = k a g'.
Proof. intros H. unfold bind. by rewrite H. Qed.

Lemma bind_raise {A B} (c : M A) (k : A → M B) g e g' :
  c g = (Raise e, g') → bind c k g = (Raise e, g').
Proof. intros H. unfold bind. by rewrite H. Qed.

Lemma readonly_run {A} (c : M A) g : readonly c → c g = ((c g).1, g).
Proof. intros H. specialize (H g). destruct (c g); simpl in *. by subst. Qed.

Lemma node_ref_run g x n : find_node g x = Some n → node_ref x g = (Ok n, g).
Proof. intros H. unfold node_ref. by rewrite H. Qed.

Lemma py_assert_true b g : b = true → py_assert b g = (Ok tt, g).
Proof. by intros ->. Qed.

Lemma py_assert_false b g : b = false → py_assert b g = (Raise AssertionError, g).
Proof. by intros ->. Qed.

(** A filter whose predicate answers on every element. *)
Lemma filterM_ok {A} (p : A → M bool) (P : A → Prop)
    `{∀ x, Decision (P x)} l g :
  (∀ x, x ∈ l → p x g = (Ok (bool_decide (P x)), g)) →
  filterM p l g = (Ok (filter P l), g).
Proof.
  induction l as [|x l IH]; intros Hp; simpl; [done|].
  unfold bind. rewrite Hp by left. fold (@filterM A).
  rewrite IH by (intros; apply Hp; by right).
  unfold ret. rewrite filter_cons. by case_bool_decide; case_decide.
Qed.

(** What a read-only filter returned passed the predicate. *)
Lemma filterM_ok_inv {A} (p : A → M bool) l g r :
  (∀ x, readonly (p x)) →
  (filterM p l g).1 = Ok r →
  ∀ x, x ∈ r → x ∈ l ∧ (p x g).1 = Ok true.
Proof.
  intros Hro. revert r. induction l as [|y l IH]; simpl; intros r Hr x Hx.
  - inversion Hr; subst. by apply elem_of_nil in Hx.
  - unfold bind in Hr. rewrite (readonly_run (p y) g) in Hr by done.
    destruct ((p y g).1) as [b|e] eqn:Hy; [|done].
    fold (@filterM A) in Hr.
    rewrite (readonly_run (filterM p l) g) in Hr
      by by apply readonly_filterM.
    destruct ((filterM p l g).1) as [r'|e] eqn:Hl; [|done].
    simpl in Hr. inversion Hr; subst; clear Hr.
    destruct b.
    + apply elem_of_cons in Hx as [->|Hx].
      * split; [left|done].
      * destruct (IH r' eq_refl x Hx). split; [by right|done].
    + destruct (IH r' eq_refl x Hx). split; [by right|done].
Qed.

End EffFacts.

(** ** Well-formed graphs *)

Section LintFacts.
Import Fx.

Lemma topological_inv seen l :
  topological seen l = true →
  NoDup (name <$> l)
  ∧ (∀ n, n ∈ l → name n ∉ seen)
  ∧ (∀ n a, n ∈ l → a ∈ args n →
       a ≠ name n ∧ (a ∈ seen ∨ a ∈ name <$> l)).
Proof.
  revert seen. induction l as [|n l IH]; intros seen; simpl topological.
  - intros _. split_and!;
      [apply NoDup_nil_2 | intros ? []%elem_of_nil
       | intros ? ? []%elem_of_nil].
  - rewrite !andb_true_iff, bool_decide_eq_true, forallb_forall.
    intros [[Hfresh Hargs] Htail].
    destruct (IH _ Htail) as (Hnd & Hseen & Hdef).
    assert (Hn : name n ∉ name <$> l).
    { intros (m & Heq & Hm)%list_elem_of_fmap.
      apply (Hseen m Hm). rewrite <- Heq. left. }
    split_and!.
    + rewrite fmap_cons. by apply NoDup_cons.
    + intros m [->|Hm]%elem_of_cons; [done|].
      intros Hin. apply (Hseen m Hm). by right.
    + intros m a [->|Hm]%elem_of_cons Ha.
      * assert (a ∈ seen) as Hs.
        { eapply bool_decide_eq_true, Hargs. by apply list_elem_of_In. }
        split; [|by left]. intros ->. done.
      * destruct (Hdef m a Hm Ha) as [Hne Hor]. split; [done|].
        rewrite fmap_cons.
        destruct Hor as [[->|Hs]%elem_of_cons|Hl];
          [right; left|by left|right; by right].
Qed.

Lemma topological_NoDup g :
  topological [] (nodes g) = true → NoDup (name <$> nodes g).
Proof. intros H. by destruct (topological_inv _ _ H). Qed.

Lemma topological_no_self g n :
  topological [] (nodes g) = true → n ∈ nodes g → name n ∉ args n.
Proof.
  intros H Hn Ha. destruct (topological_inv _ _ H) as (_ & _ & Hdef).
  by destruct (Hdef n (name n) Hn Ha).
Qed.

Lemma topological_defined g n a :
  topological [] (nodes g) = true → n ∈ nodes g → a ∈ args n →
  a ∈ name <$> nodes g.
Proof.
  intros H Hn Ha. destruct (topological_inv _ _ H) as (_ & _ & Hdef).
  destruct (Hdef n a Hn Ha) as [_ [Hs|Hl]]; [|done].
  by apply elem_of_nil in Hs.
Qed.

Lemma find_node_Some g x n :
  find_node g x = Some n → n ∈ nodes g ∧ name n = x.
Proof.
  unfold find_node. intros ([i m] & Hf & ->)%fmap_Some.
  apply list_find_Some in Hf as (Hi & Hx & _).
  split; [by eapply list_elem_of_lookup_2|done].
Qed.

Lemma find_node_is_Some g x :
  x ∈ name <$> nodes g → ∃ n, find_node g x = Some n.
Proof.
  intros (n & -> & Hn)%list_elem_of_fmap. unfold find_node.
  destruct (list_find_elem_of (λ m, name m = name n) (nodes g) n Hn eq_refl)
    as [[i m] ->].
  by exists m.
Qed.

Lemma NoDup_name_inj l n m :
  NoDup (name <$> l) → n ∈ l → m ∈ l → name n = name m → n = m.
Proof.
  induction l as [|y l IH]; [by rewrite elem_of_nil|].
  rewrite fmap_cons, NoDup_cons.
  intros [Hy Hnd] [->|Hn]%elem_of_cons [->|Hm]%elem_of_cons Heq; try done.
  - destruct Hy. rewrite Heq. by apply list_elem_of_fmap_2.
  - destruct Hy. rewrite <- Heq. by apply list_elem_of_fmap_2.
  - by apply IH.
Qed.

Lemma find_node_elem g n :
  NoDup (name <$> nodes g) → n ∈ nodes g → find_node g (name n) = Some n.
Proof.
  intros Hnd Hn.
  destruct (find_node_is_Some g (name n)) as [m Hm];
    [by apply list_elem_of_fmap_2|].
  rewrite Hm. f_equal. apply find_node_Some in Hm as [Hin Heq].
  by eapply NoDup_name_inj.
Qed.

Lemma targets_resolve_elem g n :
  targets_resolve g = true → n ∈ nodes g → op n = call_module →
  is_Some (modules g !! target n).
Proof.
  unfold targets_resolve. rewrite forallb_forall. intros H Hn Hop.
  apply list_elem_of_In, H in Hn. apply orb_true_iff in Hn as [Hn|Hn].
  - apply negb_true_iff, bool_decide_eq_false in Hn. destruct Hn.
    rewrite Hop. by apply list_elem_of_singleton.
  - by apply bool_decide_eq_true in Hn.
Qed.

Lemma lint_inv g :
  lint g = true → topological [] (nodes g) = true ∧ targets_resolve g = true.
Proof. unfold lint. by rewrite andb_true_iff. Qed.

Lemma call_module_class o : o ∈ CALL_MODULE ↔ o = call_module.
Proof. apply list_elem_of_singleton. Qed.

End LintFacts.

(** ** The checkers *)

Section Checkers.
Import Fx Eff.

(** The finder's check accepts a batch exactly when no node is named
    twice. *)
Lemma check_aps_commutativity_NoDup aps :
  Remover.check_aps_commutativity aps = true ↔ NoDup (Remover.node <$> aps).
Proof.
  unfold Remover.check_aps_commutativity.
  rewrite bool_decide_eq_true, <- size_list_to_set_NoDup, length_fmap.
  split; congruence.
Qed.

Lemma check_aps_commutativity_distinct aps :
  Remover.check_aps_commutativity aps = true
  ↔ length aps = size (list_to_set (Remover.node <$> aps) : gset string).
Proof. unfold Remover.check_aps_commutativity. apply bool_decide_eq_true. Qed.

(** The rewriter's check accepts every batch. *)
Lemma _check_aps_accepts aps g : NewRemover._check_aps aps g = (Ok tt, g).
Proof. done. Qed.

(** C3, at a batch that names one node twice: the finder's
    [check_aps_commutativity] rejects it, and the rewriter's [_check_aps]
    accepts it and leaves the graph module as it is. *)
Theorem check_aps_same_node_twice (n : string) (g : GraphModule) :
  Remover.check_aps_commutativity
    [Remover.mkEpsTunnelNode n; Remover.mkEpsTunnelNode n] = false
  ∧ NewRemover._check_aps
      [NewRemover.mkApplicationPoint n; NewRemover.mkApplicationPoint n] g
    = (Ok tt, g).
Proof.
  split; [|done].
  apply not_true_iff_false. rewrite check_aps_commutativity_NoDup.
  simpl. rewrite NoDup_cons. intros [Hn _]. apply Hn. left.
Qed.

End Checkers.

(** ** The constructor of [PACTUnsignedAct] *)

Section PactFacts.
Import Pact.

Variable lower : string → string.

Lemma assert_param_valid_spec cls value param_name valid_values :
  valid_values ≠ [] →
  match assert_param_valid cls value param_name valid_values with
  | Ok _ => value ∈ valid_values
  | Raise e => (value ∉ valid_values) ∧ (∃ msg, e = AssertionError msg)
  end.
Proof.
  intros Hne. unfold assert_param_valid, error_str.
  destruct valid_values as [|v [|w l]]; [done| |];
    case_bool_decide; eauto.
Qed.

Lemma forward_kernel_valid self :
  act_kind self ∈ valid_act_kinds → forward_kernel self ≠ unchanged.
Proof.
  unfold forward_kernel, valid_act_kinds.
  rewrite !elem_of_cons, elem_of_nil.
  intros H. destruct (started self); simpl; [done|].
  repeat case_bool_decide; try done.
  destruct H as [?|[?|[?|[]]]]; done.
Qed.

(** C8: the constructor raises exactly when the lower-cased [act_kind]
    or the lower-cased [init_clip] is outside its list of valid values,
    and what it raises is the assertion of [assert_param_valid].
    Otherwise it returns the module, which holds the lower-cased values;
    [forward] on that module, started or not, takes one of the branches
    for an activation and never falls through its dispatch on
    [act_kind]. *)
Theorem PACTUnsignedAct_init_valid
    (n_levels : Z) (init_clip : string) (learn_clip : bool)
    (act_kind : string) (leaky nb_std : spec_float) :
  ((∃ e, __init__ lower n_levels init_clip learn_clip act_kind leaky nb_std
         = Raise e)
   ↔ (lower act_kind ∉ valid_act_kinds ∨ lower init_clip ∉ valid_init_clips))
  ∧ match __init__ lower n_levels init_clip learn_clip act_kind leaky nb_std with
    | Ok self =>
        Pact.act_kind self = lower act_kind
        ∧ Pact.init_clip self = lower init_clip
        ∧ Pact.act_kind self ∈ valid_act_kinds
        ∧ Pact.init_clip self ∈ valid_init_clips
        ∧ started self = false
        ∧ ∀ b, forward_kernel (set_started b self) ≠ unchanged
    | Raise e => ∃ msg, e = AssertionError msg
    end.
Proof.
  unfold __init__.
  pose proof (assert_param_valid_spec "PACTUnsignedAct" (lower act_kind)
                "act_kind" valid_act_kinds) as Ha.
  pose proof (assert_param_valid_spec "PACTUnsignedAct" (lower init_clip)
                "init_clip" valid_init_clips) as Hi.
  fold valid_act_kinds valid_init_clips.
  destruct (assert_param_valid _ (lower act_kind) _ _) as [[]|ea].
  - destruct (assert_param_valid _ (lower init_clip) _ _) as [[]|ei].
    + specialize (Ha ltac:(done)). specialize (Hi ltac:(done)). split.
      * split; [by intros [e ?]|]. intros [?|?]; done.
      * simpl. split_and!; try done.
        intros b. by apply forward_kernel_valid.
    + destruct (Hi ltac:(done)) as [Hni Hmsg]. split; [|done].
      split; [by right|eauto].
  - destruct (Ha ltac:(done)) as [Hna Hmsg]. split; [|done].
    split; [by left|eauto].
Qed.

End PactFacts.

(** ** [EpsTunnelRemover.find] *)

Section NewRemoverFind.
Import Torch Fx Eff.

Lemma on_tunnel_lookup g P n m :
  op n = call_module → modules g !! target n = Some m →
  on_tunnel g P n
  ↔ match m with EpsTunnel ei eo => P ei eo | Other => False end.
Proof. intros Hop Hm. unfold on_tunnel. rewrite Hm. tauto. Qed.

Lemma on_tunnel_other_op g P n : op n ∉ CALL_MODULE → ¬ on_tunnel g P n.
Proof. intros Hop [Hc _]. apply Hop. by apply call_module_class. Qed.

Lemma nnmodule_from_fxnode_run g n m :
  op n = call_module → modules g !! target n = Some m →
  NewRemover.nnmodule_from_fxnode n g = (Ok m, g).
Proof.
  intros Hop Hm. unfold NewRemover.nnmodule_from_fxnode.
  by rewrite get_submodule_call_module, Hm.
Qed.

Lemma nnmodule_from_fxnode_missing g n :
  op n = call_module → modules g !! target n = None →
  NewRemover.nnmodule_from_fxnode n g = (Raise AttributeError, g).
Proof.
  intros Hop Hm. unfold NewRemover.nnmodule_from_fxnode.
  by rewrite get_submodule_call_module, Hm.
Qed.

Lemma find_force g :
  targets_resolve g = true →
  NewRemover.find true g
  = (Ok (ap_of <$> filter (is_tunnel_node g) (nodes g)), g).
Proof.
  intros Hres. unfold NewRemover.find.
  rewrite (bind_ok _ _ g g g) by done.
  rewrite (bind_ok _ _ g (filter (is_tunnel_node g) (nodes g)) g); [done|].
  apply filterM_ok. intros n Hn. unfold is_tunnel_node.
  case_bool_decide as Hop.
  - apply call_module_class in Hop.
    destruct (targets_resolve_elem g n Hres Hn Hop) as [m Hm].
    pose proof (on_tunnel_lookup g (λ _ _, True) n m Hop Hm) as Hon.
    rewrite (bind_ok _ _ g m g) by by apply nnmodule_from_fxnode_run.
    destruct m as [ei eo|].
    + by rewrite bool_decide_eq_true_2 by by apply Hon.
    + by rewrite bool_decide_eq_false_2 by by intros ?%Hon.
  - by rewrite bool_decide_eq_false_2 by by apply on_tunnel_other_op.
Qed.

Lemma find_conservative g :
  targets_resolve g = true → eps_comparable g →
  NewRemover.find false g
  = (Ok (ap_of <$> filter (passes_identity_test g) (nodes g)), g).
Proof.
  intros Hres Hcmp. unfold NewRemover.find.
  rewrite (bind_ok _ _ g g g) by done.
  rewrite (bind_ok _ _ g (filter (passes_identity_test g) (nodes g)) g);
    [done|].
  apply filterM_ok. intros n Hn. unfold passes_identity_test.
  case_bool_decide as Hop.
  - apply call_module_class in Hop.
    destruct (targets_resolve_elem g n Hres Hn Hop) as [m Hm].
    pose proof (on_tunnel_lookup g torch_equal n m Hop Hm) as Hon.
    rewrite (bind_ok _ _ g m g) by by apply nnmodule_from_fxnode_run.
    destruct m as [ei eo|].
    + pose proof (map_Forall_lookup_1 _ _ _ _ Hcmp Hm) as Hb. simpl in Hb.
      destruct (all_eq_broadcastable _ _ Hb) as [r Hr].
      unfold torch_equal in Hon. rewrite Hr in Hon. rewrite Hr.
      destruct r.
      * by rewrite bool_decide_eq_true_2 by by apply Hon.
      * by rewrite bool_decide_eq_false_2 by by intros ?%Hon.
    + by rewrite bool_decide_eq_false_2 by by intros ?%Hon.
  - by rewrite bool_decide_eq_false_2 by by apply on_tunnel_other_op.
Qed.







(** In [gK] the two tensors hold the same elements in the shapes [(2,)]
    and [(2, 1)]; the comparison broadcasts them and fails, so the
    conservative mode does not return the tunnel. *)
Example find_gK :
  NewRemover.find false Samples.gK = (Ok [], Samples.gK)
  ∧ NewRemover.find true Samples.gK
    = (Ok [NewRemover.mkApplicationPoint "tunnel_k"], Samples.gK).
Proof. split; vm_compute; reflexivity. Qed.

End NewRemoverFind.

(** ** [EpsTunnelRemoverFinder.find] *)

Section RemoverFind.
Import Torch Fx Eff.

Lemma feeds_output_only_alt g x :
  feeds_output_only g x ↔ ∃ u, users g x = [u] ∧ op u = output.
Proof.
  unfold feeds_output_only, OUTPUT.
  destruct (users g x) as [|u [|? ?]].
  - split; [done|]. by intros (? & ? & _).
  - rewrite list_elem_of_singleton. split; [eauto|].
    by intros (? & [= <-] & ?).
  - split; [done|]. by intros (? & ? & _).
Qed.

Lemma single_input_elem g n :
  single_input g → n ∈ nodes g → is_tunnel_node g n →
  length (all_input_nodes n) = 1.
Proof. unfold single_input. rewrite Forall_forall. auto. Qed.

(** *** The steps of [find] read the graph module only *)

Lemma readonly_is_identity_epstunnel n :
  readonly (Remover.is_identity_epstunnel n).
Proof.
  apply readonly_bind; [apply readonly_get_submodule|].
  intros [ei eo|]; [|apply readonly_raise].
  destruct (all_eq ei eo); [apply readonly_ret|apply readonly_raise].
Qed.

Lemma readonly_is_integerised_placeholder n :
  readonly (Remover.is_integerised_placeholder n).
Proof.
  apply readonly_bind; [apply readonly_py_assert|]. intros _.
  apply readonly_bind.
  { destruct (all_input_nodes n);
      [apply readonly_raise|apply readonly_node_ref]. }
  intros pn. apply readonly_bind; [apply readonly_get_submodule|].
  intros m. case_bool_decide; [|apply readonly_ret].
  destruct m; [apply readonly_ret|apply readonly_raise].
Qed.

Lemma readonly_is_output_node x : readonly (Remover.is_output_node x).
Proof.
  apply readonly_bind; [apply readonly_get|]. intros g.
  destruct (users g x) as [|u [|? ?]]; try apply readonly_ret.
  case_bool_decide; apply readonly_ret.
Qed.

Lemma readonly_find : readonly Remover.find.
Proof.
  apply readonly_bind; [apply readonly_get|]. intros g.
  apply readonly_bind.
  { apply readonly_filterM. intros n.
    apply readonly_bind; [apply readonly_get_submodule|].
    intros m. apply readonly_ret. }
  intros epstunnels. apply readonly_bind.
  { apply readonly_filterM, readonly_is_identity_epstunnel. }
  intros identitytunnels. apply readonly_bind.
  { apply readonly_filterM, readonly_is_integerised_placeholder. }
  intros integerisedplhl. apply readonly_bind.
  { apply readonly_filterM, readonly_is_output_node. }
  intros r. apply readonly_ret.
Qed.

Lemma bind_ok_inv {A B} (c : M A) (k : A → M B) g b :
  readonly c → (bind c k g).1 = Ok b →
  ∃ a, (c g).1 = Ok a ∧ (k a g).1 = Ok b.
Proof.
  intros Hro. unfold bind. rewrite (readonly_run c g Hro).
  destruct ((c g).1) as [a|e]; [eauto|done].
Qed.

(** *** What each step answers *)

Lemma is_output_node_run g x :
  Remover.is_output_node x g
  = (Ok (bool_decide (¬ feeds_output_only g x)), g).
Proof.
  unfold Remover.is_output_node, bind, get.
  destruct (decide (feeds_output_only g x)) as [Hf|Hf].
  - rewrite bool_decide_eq_false_2 by tauto.
    unfold feeds_output_only in Hf.
    destruct (users g x) as [|u [|? ?]]; try done.
    by rewrite bool_decide_eq_true_2.
  - rewrite bool_decide_eq_true_2 by done.
    unfold feeds_output_only in Hf.
    destruct (users g x) as [|u [|? ?]]; try done.
    by rewrite bool_decide_eq_false_2.
Qed.

Lemma is_identity_epstunnel_run g n :
  eps_comparable g → is_tunnel_node g n →
  Remover.is_identity_epstunnel n g
  = (Ok (bool_decide (passes_identity_test g n)), g).
Proof.
  intros Hcmp [Hop Hm]. unfold passes_identity_test.
  destruct (modules g !! target n) as [[ei eo|]|] eqn:Hl; try done.
  pose proof (on_tunnel_lookup g torch_equal n _ Hop Hl) as Hon.
  pose proof (map_Forall_lookup_1 _ _ _ _ Hcmp Hl) as Hb. simpl in Hb.
  destruct (all_eq_broadcastable _ _ Hb) as [r Hr].
  unfold torch_equal in Hon. rewrite Hr in Hon.
  unfold Remover.is_identity_epstunnel.
  rewrite (bind_ok _ _ g (EpsTunnel ei eo) g)
    by by rewrite get_submodule_call_module, Hl.
  rewrite Hr. unfold ret. do 2 f_equal. symmetry. destruct r.
  - apply bool_decide_eq_true_2. by apply Hon.
  - apply bool_decide_eq_false_2. by intros ?%Hon.
Qed.

(** On tensors that cannot be compared the test raises. *)
Lemma is_identity_epstunnel_raise g n ei eo :
  op n = call_module → modules g !! target n = Some (EpsTunnel ei eo) →
  broadcastable ei eo = false →
  Remover.is_identity_epstunnel n g = (Raise RuntimeError, g).
Proof.
  intros Hop Hl Hb. unfold Remover.is_identity_epstunnel.
  rewrite (bind_ok _ _ g (EpsTunnel ei eo) g)
    by by rewrite get_submodule_call_module, Hl.
  unfold all_eq. unfold broadcastable in Hb.
  apply bool_decide_eq_false in Hb.
  destruct (broadcast_shapes (shape ei) (shape eo)); [|done].
  destruct Hb. eauto.
Qed.

Lemma is_integerised_placeholder_assert g n :
  length (all_input_nodes n) ≠ 1 →
  Remover.is_integerised_placeholder n g = (Raise AssertionError, g).
Proof.
  intros Hlen. unfold Remover.is_integerised_placeholder, bind.
  by rewrite bool_decide_eq_false_2.
Qed.

Lemma is_integerised_placeholder_node_iff g n p pn ei eo :
  all_input_nodes n = [p] → find_node g p = Some pn →
  op n = call_module → modules g !! target n = Some (EpsTunnel ei eo) →
  is_integerised_placeholder_node g n
  ↔ op pn ∈ PLACEHOLDER ∧ all_eq_scalar eo one = true.
Proof.
  intros Hin Hpn Hop Hl. rewrite all_ones_scalar.
  unfold is_integerised_placeholder_node, placeholder_input, on_tunnel.
  rewrite Hin, Hpn, Hl. tauto.
Qed.

Lemma is_integerised_placeholder_run g n :
  topological [] (nodes g) = true → n ∈ nodes g → is_tunnel_node g n →
  length (all_input_nodes n) = 1 →
  Remover.is_integerised_placeholder n g
  = (Ok (bool_decide (is_integerised_placeholder_node g n)), g).
Proof.
  intros Htopo Hn [Hop Hm] Hlen.
  destruct (modules g !! target n) as [[ei eo|]|] eqn:Hl; try done.
  destruct (all_input_nodes n) as [|p [|? ?]] eqn:Hin; try done.
  assert (p ∈ args n) as Hp.
  { apply elem_of_remove_dups. unfold all_input_nodes in Hin.
    rewrite Hin. left. }
  destruct (find_node_is_Some g p) as [pn Hpn];
    [by eapply topological_defined|].
  pose proof (is_integerised_placeholder_node_iff g n p pn ei eo
                Hin Hpn Hop Hl) as Hiff.
  assert (Remover.is_integerised_placeholder n g
          = (Ok (bool_decide (op pn ∈ PLACEHOLDER) && all_eq_scalar eo one), g))
    as ->.
  { unfold Remover.is_integerised_placeholder.
    rewrite (bind_ok _ _ g tt g) by by rewrite Hin.
    rewrite Hin. rewrite (bind_ok _ _ g pn g) by by apply node_ref_run.
    rewrite (bind_ok _ _ g (EpsTunnel ei eo) g)
      by by rewrite get_submodule_call_module, Hl.
    by case_bool_decide. }
  do 2 f_equal. symmetry.
  destruct (bool_decide (op pn ∈ PLACEHOLDER) && all_eq_scalar eo one) eqn:Hb.
  - apply bool_decide_eq_true_2, Hiff.
    apply andb_true_iff in Hb as [Hb1%bool_decide_eq_true Hb2]. done.
  - apply bool_decide_eq_false_2. intros [H1 H2]%Hiff.
    by rewrite (bool_decide_eq_true_2 _ H1), H2 in Hb.
Qed.

(** *** The whole of [find] *)

Lemma elem_of_tunnels g n :
  n ∈ tunnels g ↔ n ∈ nodes g ∧ is_tunnel_node g n.
Proof.
  unfold tunnels. rewrite !list_elem_of_filter. split.
  - tauto.
  - intros [Hn Ht]. split_and!; try done.
    destruct Ht as [Hop _]. by apply call_module_class.
Qed.

Lemma tunnels_run g :
  targets_resolve g = true →
  filterM (λ n, let* m := get_submodule (target_of n) in ret (is_EpsTunnel m))
          (filter (λ n, op n ∈ CALL_MODULE) (nodes g)) g
  = (Ok (tunnels g), g).
Proof.
  intros Hres. apply filterM_ok.
  intros n [Hop%call_module_class Hn]%list_elem_of_filter.
  destruct (targets_resolve_elem g n Hres Hn Hop) as [m Hm].
  pose proof (on_tunnel_lookup g (λ _ _, True) n m Hop Hm) as Hon.
  rewrite (bind_ok _ _ g m g) by by rewrite get_submodule_call_module, Hm.
  unfold ret. do 2 f_equal.
  symmetry. unfold is_tunnel_node. destruct m; simpl.
  - apply bool_decide_eq_true_2. by apply Hon.
  - apply bool_decide_eq_false_2. by intros ?%Hon.
Qed.

Lemma find_run g :
  lint g = true → eps_comparable g → single_input g →
  Remover.find g = (Ok (Remover.mkEpsTunnelNode <$> selected g), g).
Proof.
  intros [Htopo Hres]%lint_inv Hcmp Hsingle.
  unfold Remover.find, bind at 1, get.
  unfold bind at 1. rewrite (tunnels_run g Hres).
  unfold bind at 1.
  rewrite (filterM_ok _ (passes_identity_test g)); last first.
  { intros n [Hn Ht]%elem_of_tunnels. by apply is_identity_epstunnel_run. }
  unfold bind at 1.
  rewrite (filterM_ok _ (is_integerised_placeholder_node g)); last first.
  { intros n [Hn Ht]%elem_of_tunnels.
    apply is_integerised_placeholder_run; auto.
    by apply (single_input_elem g). }
  unfold bind.
  rewrite (filterM_ok _ (λ x, ¬ feeds_output_only g x)); [done|].
  intros x _. apply is_output_node_run.
Qed.

Lemma filterM_raise_any {A} (p : A → M bool) l e g x :
  (∀ y, y ∈ l → (∃ b, p y g = (Ok b, g)) ∨ p y g = (Raise e, g)) →
  x ∈ l → p x g = (Raise e, g) →
  filterM p l g = (Raise e, g).
Proof.
  induction l as [|y l IH]; intros Hp Hx Hr; [by apply elem_of_nil in Hx|].
  simpl. unfold bind.
  destruct (Hp y) as [[b Hb]|Hb]; [left| |by rewrite Hb].
  rewrite Hb. fold (@filterM A).
  apply elem_of_cons in Hx as [->|Hx]; [congruence|].
  rewrite IH; [done| |done..]. intros; apply Hp; by right.
Qed.

Lemma find_raise g n :
  lint g = true → eps_comparable g →
  n ∈ nodes g → is_tunnel_node g n → length (all_input_nodes n) ≠ 1 →
  Remover.find g = (Raise AssertionError, g).
Proof.
  intros [Htopo Hres]%lint_inv Hcmp Hn Ht Hlen.
  unfold Remover.find, bind at 1, get.
  unfold bind at 1. rewrite (tunnels_run g Hres).
  unfold bind at 1.
  rewrite (filterM_ok _ (passes_identity_test g)); last first.
  { intros m [Hm Hmt]%elem_of_tunnels. by apply is_identity_epstunnel_run. }
  unfold bind at 1.
  rewrite (filterM_raise_any _ (tunnels g) AssertionError g n); [done| | |].
  - intros m [Hm Hmt]%elem_of_tunnels.
    destruct (decide (length (all_input_nodes m) = 1)) as [H1|H1].
    + left. eexists. by apply is_integerised_placeholder_run.
    + right. by apply is_integerised_placeholder_assert.
  - by apply elem_of_tunnels.
  - by apply is_integerised_placeholder_assert.
Qed.

Lemma node_of_application_points (l : list string) :
  Remover.node <$> (Remover.mkEpsTunnelNode <$> l) = l.
Proof. rewrite <- list_fmap_compose. apply list_fmap_id. Qed.




(** The tunnel of [gC] that only the integerised-placeholder test
    selects is found; the identity tunnel next to the output is not. *)
Example find_gC :
  Remover.find Samples.gC
  = (Ok [Remover.mkEpsTunnelNode "tunnel_c"], Samples.gC).
Proof. vm_compute. reflexivity. Qed.


(** C2, for the finder: no application point that [find] returns names
    a node whose only user is an [output] node. *)
Theorem find_excludes_output_adjacent g aps ap :
  (Remover.find g).1 = Ok aps → ap ∈ aps →
  ¬ feeds_output_only g (Remover.node ap).
Proof.
  intros Hfind Hap. unfold Remover.find in Hfind.
  apply bind_ok_inv in Hfind as (g0 & [= <-] & Hfind);
    [|apply readonly_get].
  apply bind_ok_inv in Hfind as (epstunnels & _ & Hfind).
  2:{ apply readonly_filterM. intros n.
      apply readonly_bind; [apply readonly_get_submodule|].
      intros m. apply readonly_ret. }
  apply bind_ok_inv in Hfind as (identitytunnels & _ & Hfind);
    [|apply readonly_filterM, readonly_is_identity_epstunnel].
  apply bind_ok_inv in Hfind as (integerisedplhl & _ & Hfind);
    [|apply readonly_filterM, readonly_is_integerised_placeholder].
  apply bind_ok_inv in Hfind as (r & Hr & [= <-]);
    [|apply readonly_filterM, readonly_is_output_node].
  apply list_elem_of_fmap in Hap as (x & -> & Hx). simpl.
  destruct (filterM_ok_inv _ _ _ _ readonly_is_output_node Hr x Hx)
    as [_ Hout].
  rewrite is_output_node_run in Hout. simpl in Hout.
  injection Hout as Hout. by apply bool_decide_eq_true in Hout.
Qed.

Lemma find_excludes_output_adjacent_witness :
  ((Remover.find Samples.gB).1 = Ok [Remover.mkEpsTunnelNode "tunnel_b"]
   ∧ Remover.mkEpsTunnelNode "tunnel_b" ∈ [Remover.mkEpsTunnelNode "tunnel_b"])
  ∧ ¬ feeds_output_only Samples.gB "tunnel_b".
Proof.
  assert (H1 : (Remover.find Samples.gB).1
               = Ok [Remover.mkEpsTunnelNode "tunnel_b"])
    by (vm_compute; reflexivity).
  assert (H2 : Remover.mkEpsTunnelNode "tunnel_b"
               ∈ [Remover.mkEpsTunnelNode "tunnel_b"]) by left.
  split; [exact (conj H1 H2)|].
  exact (find_excludes_output_adjacent Samples.gB _ _ H1 H2).
Defined.

(** C2, as stated for [EpsTunnelRemover.find], fails on
    [input -> TunnelA(0.5, 0.5) -> output]: with and without [force] it
    returns the tunnel, whose only user is the output node. *)
Lemma rewriter_find_keeps_output_adjacent :
  feeds_output_only Samples.gA "tunnel_a"
  ∧ NewRemover.find true Samples.gA
    = (Ok [NewRemover.mkApplicationPoint "tunnel_a"], Samples.gA)
  ∧ NewRemover.find false Samples.gA
    = (Ok [NewRemover.mkApplicationPoint "tunnel_a"], Samples.gA).
Proof.
  split_and!.
  - apply (bool_decide_unpack _). vm_compute. exact I.
  - vm_compute. reflexivity.
  - vm_compute. reflexivity.
Qed.

(** C9: when [find] returns, the graph module is the one it was given
    (the same nodes with the same inputs, the same submodules with the
    same tensors), and [find] on it again returns application points
    for the same set of nodes. *)
Theorem find_no_side_effect g aps :
  (Remover.find g).1 = Ok aps →
  (Remover.find g).2 = g
  ∧ nodes (Remover.find g).2 = nodes g
  ∧ modules (Remover.find g).2 = modules g
  ∧ ∃ aps', Remover.find (Remover.find g).2 = (Ok aps', g)
            ∧ (list_to_set (Remover.node <$> aps') : gset string)
              = list_to_set (Remover.node <$> aps).
Proof.
  intros Hfind. rewrite (readonly_find g). split_and!; try done.
  exists aps. split; [|done].
  rewrite (readonly_run _ g readonly_find). by rewrite Hfind.
Qed.

Lemma find_no_side_effect_witness :
  (Remover.find Samples.gC).1 = Ok [Remover.mkEpsTunnelNode "tunnel_c"]
  ∧ (Remover.find Samples.gC).2 = Samples.gC
  ∧ nodes (Remover.find Samples.gC).2 = nodes Samples.gC
  ∧ modules (Remover.find Samples.gC).2 = modules Samples.gC
  ∧ ∃ aps', Remover.find (Remover.find Samples.gC).2 = (Ok aps', Samples.gC)
            ∧ (list_to_set (Remover.node <$> aps') : gset string)
              = list_to_set
                  (Remover.node <$> [Remover.mkEpsTunnelNode "tunnel_c"]).
Proof.
  assert (H1 : (Remover.find Samples.gC).1
               = Ok [Remover.mkEpsTunnelNode "tunnel_c"])
    by (vm_compute; reflexivity).
  split; [exact H1|]. exact (find_no_side_effect Samples.gC _ H1).
Defined.

(** C10, as the code has it: on a graph module that passes [lint] and
    whose tunnels have comparable tensors, [find] raises the assertion of
    [is_integerised_placeholder] exactly when some tunnel node does not
    have exactly one input node, and returns exactly when every tunnel
    node has one; either way it leaves the graph module as it is. *)
Theorem find_asserts_single_input g :
  lint g = true → eps_comparable g →
  (Remover.find g = (Raise AssertionError, g)
   ↔ ∃ n, n ∈ nodes g ∧ is_tunnel_node g n
          ∧ length (all_input_nodes n) ≠ 1)
  ∧ ((∃ aps, Remover.find g = (Ok aps, g))
     ↔ ∀ n, n ∈ nodes g → is_tunnel_node g n →
            length (all_input_nodes n) = 1).
Proof.
  intros Hlint Hcmp.
  destruct (decide (single_input g)) as [Hs|Hs].
  - pose proof (find_run g Hlint Hcmp Hs) as Hrun. split.
    + split; [by rewrite Hrun|].
      intros (n & Hn & Ht & Hlen). destruct Hlen.
      by apply (single_input_elem g).
    + split; [|eauto]. intros _ n Hn Ht. by apply (single_input_elem g).
  - unfold single_input in Hs.
    apply not_Forall_Exists, Exists_exists in Hs as (n & Hn & Hbad);
      [|apply _].
    assert (is_tunnel_node g n ∧ length (all_input_nodes n) ≠ 1)
      as [Ht Hlen].
    { destruct (decide (is_tunnel_node g n)) as [Ht|Ht].
      - split; [done|]. intros Hl. apply Hbad. done.
      - destruct Hbad. intros Ht'. by destruct Ht. }
    pose proof (find_raise g n Hlint Hcmp Hn Ht Hlen) as Hrun. split.
    + split; [eauto 6|done].
    + split; [by intros [aps Haps]; rewrite Hrun in Haps|].
      intros Hall. destruct Hlen. by apply Hall.
Qed.

Lemma find_asserts_single_input_witness :
  (lint Samples.gF = true ∧ eps_comparable Samples.gF)
  ∧ (Remover.find Samples.gF = (Raise AssertionError, Samples.gF)
     ↔ ∃ n, n ∈ nodes Samples.gF ∧ is_tunnel_node Samples.gF n
            ∧ length (all_input_nodes n) ≠ 1)
  ∧ ((∃ aps, Remover.find Samples.gF = (Ok aps, Samples.gF))
     ↔ ∀ n, n ∈ nodes Samples.gF → is_tunnel_node Samples.gF n →
            length (all_input_nodes n) = 1).
Proof.
  assert (H1 : lint Samples.gF = true) by reflexivity.
  assert (H2 : eps_comparable Samples.gF)
    by (apply (bool_decide_unpack _); vm_compute; exact I).
  split; [exact (conj H1 H2)|].
  exact (find_asserts_single_input Samples.gF H1 H2).
Defined.

(** A tunnel called on a constant has no input node: [find] raises, even
    though the tunnel is an identity and would pass the first test. *)
Example find_gF :
  Remover.find Samples.gF = (Raise AssertionError, Samples.gF).
Proof. vm_compute. reflexivity. Qed.

(** C10, as stated for every graph, fails on [TunnelW -> ReLU -> output]:
    the graph passes [lint] and its tunnel node has no input node, but
    the tensors of the tunnel have the shapes [(2,)] and [(3,)], and what
    [find] raises is the [RuntimeError] of the comparison in
    [is_identity_epstunnel]: the identity filter is consumed over all
    tunnels before [is_integerised_placeholder] is called on any. *)
Lemma find_raises_before_assertion :
  lint Samples.gW = true
  ∧ mkNode "tunnel_w" call_module "tunnel_w" [] ∈ nodes Samples.gW
  ∧ is_tunnel_node Samples.gW (mkNode "tunnel_w" call_module "tunnel_w" [])
  ∧ length (all_input_nodes (mkNode "tunnel_w" call_module "tunnel_w" [])) ≠ 1
  ∧ Remover.find Samples.gW = (Raise RuntimeError, Samples.gW)
  ∧ Remover.find Samples.gW ≠ (Raise AssertionError, Samples.gW).
Proof.
  assert (Hfind : Remover.find Samples.gW = (Raise RuntimeError, Samples.gW))
    by (vm_compute; reflexivity).
  split_and!.
  - reflexivity.
  - left.
  - apply (bool_decide_unpack _). vm_compute. exact I.
  - simpl. lia.
  - exact Hfind.
  - rewrite Hfind. discriminate.
Qed.

End RemoverFind.

(** ** [EpsTunnelRemover._apply] *)

Section NewRemoverApply.
Import Torch Fx Eff.

Lemma filter_nil_Forall {A} (P : A → Prop) `{∀ x, Decision (P x)} l :
  (∀ x, x ∈ l → ¬ P x) → filter P l = [].
Proof.
  induction l as [|y l IH]; intros Hl; [done|].
  rewrite filter_cons_False by (apply Hl; left).
  apply IH. intros; apply Hl; by right.
Qed.

Lemma filter_fmap_names (f : Node → Node) (x : string) (l : list Node) :
  (∀ m, name (f m) = name m) →
  filter (λ m, name m ≠ x) (f <$> l) = f <$> filter (λ m, name m ≠ x) l.
Proof.
  intros Hf. induction l as [|y l IH]; [done|].
  rewrite fmap_cons, !filter_cons, Hf, IH.
  by destruct (decide (name y ≠ x)).
Qed.

Lemma filter_absent_name (x : string) (l : list Node) :
  x ∉ name <$> l → filter (λ m, name m ≠ x) l = l.
Proof.
  induction l as [|y l IH]; [done|].
  rewrite fmap_cons, not_elem_of_cons. intros [Hne Hl].
  rewrite filter_cons_True by done. by rewrite IH.
Qed.

Lemma length_filter_erase (l : list Node) n :
  NoDup (name <$> l) → n ∈ l →
  length (filter (λ m, name m ≠ name n) l) + 1 = length l.
Proof.
  induction l as [|y l IH]; [by rewrite elem_of_nil|].
  rewrite fmap_cons, NoDup_cons. intros [Hy Hnd] Hn.
  destruct (decide (name y = name n)) as [Heq|Hne].
  - rewrite filter_cons_False by tauto.
    rewrite filter_absent_name by by rewrite <- Heq.
    simpl. lia.
  - rewrite filter_cons_True by done. simpl.
    apply elem_of_cons in Hn as [->|Hn]; [done|].
    rewrite <- (IH Hnd Hn). lia.
Qed.

Lemma NoDup_names_filter (P : Node → Prop) `{∀ m, Decision (P m)}
    (l : list Node) :
  NoDup (name <$> l) → NoDup (name <$> filter P l).
Proof.
  induction l as [|y l IH]; [done|].
  rewrite fmap_cons, NoDup_cons. intros [Hy Hnd].
  rewrite filter_cons. destruct (decide (P y)); [|by apply IH].
  rewrite fmap_cons. apply NoDup_cons. split; [|by apply IH].
  intros (m & Heq & [_ Hm]%list_elem_of_filter)%list_elem_of_fmap.
  apply Hy. rewrite Heq. by apply list_elem_of_fmap_2.
Qed.

Lemma size_upstream_nodes n :
  size (list_to_set (all_input_nodes n) : gset string)
  = length (all_input_nodes n).
Proof. apply size_list_to_set, NoDup_remove_dups. Qed.

Lemma size_downstream_nodes g x :
  topological [] (nodes g) = true →
  size (list_to_set (name <$> users g x) : gset string)
  = length (users g x).
Proof.
  intros Htopo. rewrite size_list_to_set, length_fmap; [done|].
  by apply NoDup_names_filter, topological_NoDup.
Qed.

Lemma no_users_after_replace g n p d :
  topological [] (nodes g) = true → n ∈ nodes g →
  all_input_nodes n = [p] → users g (name n) = [d] →
  users
    (mkGraphModule
       ((λ m, if decide (name m = name d)
              then rewired (name n) p m else m) <$> nodes g)
       (modules g))
    (name n) = [].
Proof.
  intros Htopo Hn Hin Hus. unfold users at 1. simpl.
  apply filter_nil_Forall.
  intros m' (m & -> & Hm)%list_elem_of_fmap.
  assert (p ≠ name n) as Hp.
  { intros ->. apply (topological_no_self g n Htopo Hn).
    apply elem_of_remove_dups. unfold all_input_nodes in Hin.
    rewrite Hin. left. }
  case_decide as Hd.
  - simpl. intros (a & Ha & _)%list_elem_of_fmap.
    case_decide; congruence.
  - intros Hx. assert (m ∈ users g (name n)) as Hmu.
    { apply list_elem_of_filter. done. }
    rewrite Hus in Hmu. apply list_elem_of_singleton in Hmu. congruence.
Qed.

Lemma next_iter_singleton (l : list string) x g :
  l = [x] → NewRemover.next_iter (list_to_set l) g = (Ok x, g).
Proof.
  intros ->. unfold NewRemover.next_iter.
  by destruct (singleton_list_to_set x) as [_ ->].
Qed.

Lemma size_singleton_list (l : list string) x :
  l = [x] → bool_decide (size (list_to_set l : gset string) = 1) = true.
Proof.
  intros ->. apply bool_decide_eq_true_2.
  by destruct (singleton_list_to_set x).
Qed.

(** When the node has one input node and one user, [_apply] gets as far
    as rewiring the user; what remains is to delete the submodule and to
    erase the node. *)
Lemma _apply_steps g x n p d :
  topological [] (nodes g) = true →
  find_node g x = Some n →
  all_input_nodes n = [p] → users g x = [d] →
  NewRemover._apply (NewRemover.mkApplicationPoint x) g
  = (delete_submodule (target_of n) ;; erase_node (name n))
      (mkGraphModule
         ((λ m, if decide (name m = name d) then rewired (name n) p m else m)
            <$> nodes g)
         (modules g)).
Proof.
  intros Htopo Hfind Hin Hus.
  destruct (find_node_Some _ _ _ Hfind) as [Hn <-].
  assert (name <$> users g (name n) = [name d]) as Hds by by rewrite Hus.
  unfold NewRemover._apply.
  rewrite (bind_ok _ _ g n g) by by apply node_ref_run.
  rewrite (bind_ok _ _ g tt g)
    by by apply py_assert_true, (size_singleton_list _ p).
  rewrite (bind_ok _ _ g p g) by by apply next_iter_singleton.
  rewrite (bind_ok _ _ g g g) by done.
  rewrite (bind_ok _ _ g tt g)
    by by apply py_assert_true, (size_singleton_list _ (name d)).
  rewrite (bind_ok _ _ g (name d) g) by by apply next_iter_singleton.
  reflexivity.
Qed.

(** What [_apply] does when the node has one input node and one user,
    and its target is a string. *)
Lemma _apply_run g x n p d :
  topological [] (nodes g) = true →
  find_node g x = Some n → op n ≠ call_function →
  all_input_nodes n = [p] → users g x = [d] →
  NewRemover._apply (NewRemover.mkApplicationPoint x) g
  = (Ok tt, spliced g n p (name d)).
Proof.
  intros Htopo Hfind Hop Hin Hus.
  rewrite (_apply_steps g x n p d Htopo Hfind Hin Hus).
  destruct (find_node_Some _ _ _ Hfind) as [Hn <-].
  rewrite (target_of_str n Hop).
  unfold bind, delete_submodule, erase_node.
  pose proof (no_users_after_replace g n p d Htopo Hn Hin Hus) as Hno.
  unfold users in *. cbn [nodes modules] in *. rewrite Hno.
  unfold spliced. by rewrite filter_fmap_names by (intros m; by case_decide).
Qed.

(** On a [call_function] node with one input node and one user,
    [delete_submodule] raises once the user is rewired. *)
Lemma _apply_callable g x n p d :
  topological [] (nodes g) = true →
  find_node g x = Some n → op n = call_function →
  all_input_nodes n = [p] → users g x = [d] →
  NewRemover._apply (NewRemover.mkApplicationPoint x) g
  = (Raise AttributeError,
     mkGraphModule
       ((λ m, if decide (name m = name d) then rewired (name n) p m else m)
          <$> nodes g)
       (modules g)).
Proof.
  intros Htopo Hfind Hop Hin Hus.
  rewrite (_apply_steps g x n p d Htopo Hfind Hin Hus).
  by rewrite (target_of_callable n Hop).
Qed.

(** [_apply] raises its first assertion when the node does not have
    exactly one input node. *)
Lemma _apply_raise_upstream g x n :
  find_node g x = Some n → length (all_input_nodes n) ≠ 1 →
  NewRemover._apply (NewRemover.mkApplicationPoint x) g
  = (Raise AssertionError, g).
Proof.
  intros Hfind Hlen. unfold NewRemover._apply.
  rewrite (bind_ok _ _ g n g) by by apply node_ref_run.
  apply bind_raise, py_assert_false, bool_decide_eq_false_2.
  by rewrite size_upstream_nodes.
Qed.

(** [_apply] raises its second assertion when the node does not have
    exactly one user. *)
Lemma _apply_raise_downstream g x n :
  topological [] (nodes g) = true →
  find_node g x = Some n →
  length (all_input_nodes n) = 1 → length (users g x) ≠ 1 →
  NewRemover._apply (NewRemover.mkApplicationPoint x) g
  = (Raise AssertionError, g).
Proof.
  intros Htopo Hfind Hlen Hus.
  destruct (find_node_Some _ _ _ Hfind) as [Hn <-].
  destruct (all_input_nodes n) as [|p [|? ?]] eqn:Hin; try done.
  unfold NewRemover._apply.
  rewrite (bind_ok _ _ g n g) by by apply node_ref_run.
  rewrite (bind_ok _ _ g tt g)
    by by apply py_assert_true, (size_singleton_list _ p).
  rewrite (bind_ok _ _ g p g) by by apply next_iter_singleton.
  rewrite (bind_ok _ _ g g g) by done.
  apply bind_raise, py_assert_false, bool_decide_eq_false_2.
  by rewrite size_downstream_nodes.
Qed.

Lemma lookup_delete_below (ms : gmap string Module) s t :
  filter (λ kv, below s kv.1 = false) ms !! t
  = if below s t then None else ms !! t.
Proof.
  apply option_eq. intros v. rewrite map_lookup_filter_Some. simpl.
  destruct (below s t); [|tauto]. split; [by intros [_ ?]|done].
Qed.

Lemma below_self s : below s s = true.
Proof. unfold below. by rewrite bool_decide_eq_true_2. Qed.

Lemma below_prefix s t :
  String.prefix (s +:+ ".") t = true → below s t = true.
Proof. unfold below. intros ->. apply orb_true_r. Qed.

Lemma below_false s t :
  t ≠ s → String.prefix (s +:+ ".") t = false → below s t = false.
Proof. unfold below. intros Hne ->. by rewrite bool_decide_eq_false_2. Qed.

(** C4: when the [call_module] node named by the application point has
    exactly one input node [p] and exactly one user [d], [_apply]
    returns; the graph then has one node fewer, the user [d] takes [p]
    wherever it took the node and keeps its other inputs, every other
    node is as it was, the node is no longer in the graph, no node has
    it among its inputs, and its submodule is deleted (with whatever is
    registered below it) while every other submodule stays. *)
Theorem apply_splices_tunnel g x n p d :
  topological [] (nodes g) = true →
  find_node g x = Some n → op n = call_module →
  all_input_nodes n = [p] → users g x = [d] →
  ∃ g',
    NewRemover._apply (NewRemover.mkApplicationPoint x) g = (Ok tt, g')
    ∧ length (nodes g') + 1 = length (nodes g)
    ∧ nodes g'
      = (λ m, if decide (name m = name d)
              then mkNode (name m) (op m) (target m)
                     ((λ a, if decide (a = x) then p else a) <$> args m)
              else m)
          <$> filter (λ m, name m ≠ x) (nodes g)
    ∧ (∃ d', d' ∈ nodes g' ∧ name d' = name d
             ∧ args d' = (λ a, if decide (a = x) then p else a) <$> args d
             ∧ p ∈ args d' ∧ x ∉ args d')
    ∧ (x ∉ name <$> nodes g')
    ∧ (∀ m, m ∈ nodes g' → x ∉ args m)
    ∧ modules g' !! target n = None
    ∧ (∀ t, String.prefix (target n +:+ ".") t = true →
            modules g' !! t = None)
    ∧ (∀ t, t ≠ target n → String.prefix (target n +:+ ".") t = false →
            modules g' !! t = modules g !! t).
Proof.
  intros Htopo Hfind Hop Hin Hus. exists (spliced g n p (name d)).
  split; [apply _apply_run; by rewrite ?Hop|].
  destruct (find_node_Some _ _ _ Hfind) as [Hn <-].
  assert (d ∈ nodes g ∧ name n ∈ args d) as [Hd Hda].
  { assert (d ∈ users g (name n)) as Hdu by (rewrite Hus; left).
    apply list_elem_of_filter in Hdu. tauto. }
  assert (p ≠ name n) as Hp.
  { intros ->. apply (topological_no_self g n Htopo Hn).
    apply elem_of_remove_dups. unfold all_input_nodes in Hin.
    rewrite Hin. left. }
  unfold spliced. cbn [nodes modules]. split_and!; try done.
  - rewrite length_fmap. apply length_filter_erase; [|done].
    by apply topological_NoDup.
  - exists (rewired (name n) p d). split_and!; try done.
    + apply (list_elem_of_fmap_2' _ _ d).
      * apply list_elem_of_filter. split; [|done].
        intros Heq. apply (topological_no_self g d Htopo Hd). by rewrite Heq.
      * by rewrite decide_True.
    + simpl. apply (list_elem_of_fmap_2' _ _ (name n)); [done|].
      by rewrite decide_True.
    + simpl. intros (a & Ha & _)%list_elem_of_fmap. by case_decide.
  - intros (m' & Heq & (m & -> & [Hne _]%list_elem_of_filter)
                          %list_elem_of_fmap)%list_elem_of_fmap.
    apply Hne. rewrite Heq. by case_decide.
  - intros m Hm Hx.
    rewrite <- filter_fmap_names in Hm by (intros m0; by case_decide).
    apply list_elem_of_filter in Hm as [_ Hm].
    pose proof (no_users_after_replace g n p d Htopo Hn Hin Hus) as Hno.
    eapply (filter_nil_not_elem_of _ _ m Hno); [exact Hx|exact Hm].
  - by rewrite lookup_delete_below, below_self.
  - intros t Ht. by rewrite lookup_delete_below, below_prefix.
  - intros t Hne Ht. by rewrite lookup_delete_below, below_false.
Qed.

Lemma apply_splices_tunnel_witness :
  (topological [] (nodes Samples.gB) = true
   ∧ find_node Samples.gB "tunnel_b" = Some Samples.tunnel_b
   ∧ op Samples.tunnel_b = call_module
   ∧ all_input_nodes Samples.tunnel_b = ["x"]
   ∧ users Samples.gB "tunnel_b"
     = [mkNode "relu" call_module "relu" ["tunnel_b"]])
  ∧ ∃ g',
      NewRemover._apply (NewRemover.mkApplicationPoint "tunnel_b") Samples.gB
      = (Ok tt, g')
      ∧ length (nodes g') + 1 = length (nodes Samples.gB)
      ∧ nodes g'
        = (λ m, if decide (name m = "relu")
                then mkNode (name m) (op m) (target m)
                       ((λ a, if decide (a = "tunnel_b") then "x" else a)
                          <$> args m)
                else m)
            <$> filter (λ m, name m ≠ "tunnel_b") (nodes Samples.gB)
      ∧ (∃ d', d' ∈ nodes g' ∧ name d' = "relu"
               ∧ args d' = (λ a, if decide (a = "tunnel_b") then "x" else a)
                             <$> ["tunnel_b"]
               ∧ "x" ∈ args d' ∧ "tunnel_b" ∉ args d')
      ∧ ("tunnel_b" ∉ name <$> nodes g')
      ∧ (∀ m, m ∈ nodes g' → "tunnel_b" ∉ args m)
      ∧ modules g' !! "tunnel_b" = None
      ∧ (∀ t, String.prefix ("tunnel_b" +:+ ".") t = true →
              modules g' !! t = None)
      ∧ (∀ t, t ≠ "tunnel_b" →
              String.prefix ("tunnel_b" +:+ ".") t = false →
              modules g' !! t = modules Samples.gB !! t).
Proof.
  assert (H1 : topological [] (nodes Samples.gB) = true) by reflexivity.
  assert (H2 : find_node Samples.gB "tunnel_b" = Some Samples.tunnel_b)
    by reflexivity.
  assert (H3 : op Samples.tunnel_b = call_module) by reflexivity.
  assert (H4 : all_input_nodes Samples.tunnel_b = ["x"]) by reflexivity.
  assert (H5 : users Samples.gB "tunnel_b"
               = [mkNode "relu" call_module "relu" ["tunnel_b"]])
    by reflexivity.
  split; [exact (conj H1 (conj H2 (conj H3 (conj H4 H5))))|].
  exact (apply_splices_tunnel Samples.gB "tunnel_b" Samples.tunnel_b "x"
           (mkNode "relu" call_module "relu" ["tunnel_b"]) H1 H2 H3 H4 H5).
Defined.

(** The scenario of the spec: removing [TunnelB] from
    [input -> TunnelB -> ReLU -> output] leaves
    [input -> ReLU -> output]. *)
Example apply_gB :
  NewRemover._apply (NewRemover.mkApplicationPoint "tunnel_b") Samples.gB
  = (Ok tt, Samples.gB_spliced).
Proof. vm_compute. reflexivity. Qed.

(** C6: for a [call_module] node of a graph in topological order,
    [_apply] raises an [AssertionError], with the graph module untouched,
    exactly when the node does not have exactly one input node or does
    not have exactly one user; it returns exactly when both counts are
    one; and whenever it raises, the graph module is as it was. *)
Theorem apply_raises_iff g x n :
  topological [] (nodes g) = true →
  find_node g x = Some n → op n = call_module →
  (NewRemover._apply (NewRemover.mkApplicationPoint x) g
   = (Raise AssertionError, g)
   ↔ length (all_input_nodes n) ≠ 1 ∨ length (users g x) ≠ 1)
  ∧ ((∃ g', NewRemover._apply (NewRemover.mkApplicationPoint x) g
            = (Ok tt, g'))
     ↔ length (all_input_nodes n) = 1 ∧ length (users g x) = 1)
  ∧ (∀ e g', NewRemover._apply (NewRemover.mkApplicationPoint x) g
             = (Raise e, g') → g' = g).
Proof.
  intros Htopo Hfind Hop.
  assert (op n ≠ call_function) as Hstr by by rewrite Hop.
  destruct (decide (length (all_input_nodes n) = 1)) as [H1|H1].
  - destruct (decide (length (users g x) = 1)) as [H2|H2].
    + destruct (all_input_nodes n) as [|p [|? ?]] eqn:Hin; try done.
      destruct (users g x) as [|d [|? ?]] eqn:Hus; try done.
      rewrite (_apply_run g x n p d Htopo Hfind Hstr Hin Hus).
      split_and!.
      * split; [done|]. simpl. intros [?|?]; done.
      * split; [done|eauto].
      * done.
    + rewrite (_apply_raise_downstream g x n Htopo Hfind H1 H2).
      split_and!.
      * split; [by right|done].
      * split; [by intros [? ?]|]. by intros [_ ?].
      * by intros e g' [= _ <-].
  - rewrite (_apply_raise_upstream g x n Hfind H1).
    split_and!.
    + split; [by left|done].
    + split; [by intros [? ?]|]. by intros [? _].
    + by intros e g' [= _ <-].
Qed.

Lemma apply_raises_iff_witness :
  (topological [] (nodes Samples.gD) = true
   ∧ find_node Samples.gD "tunnel_e" = Some Samples.tunnel_e
   ∧ op Samples.tunnel_e = call_module)
  ∧ (NewRemover._apply (NewRemover.mkApplicationPoint "tunnel_e") Samples.gD
     = (Raise AssertionError, Samples.gD)
     ↔ length (all_input_nodes Samples.tunnel_e) ≠ 1
       ∨ length (users Samples.gD "tunnel_e") ≠ 1)
  ∧ ((∃ g', NewRemover._apply (NewRemover.mkApplicationPoint "tunnel_e")
              Samples.gD = (Ok tt, g'))
     ↔ length (all_input_nodes Samples.tunnel_e) = 1
       ∧ length (users Samples.gD "tunnel_e") = 1)
  ∧ (∀ e g', NewRemover._apply (NewRemover.mkApplicationPoint "tunnel_e")
               Samples.gD = (Raise e, g') → g' = Samples.gD).
Proof.
  assert (H1 : topological [] (nodes Samples.gD) = true) by reflexivity.
  assert (H2 : find_node Samples.gD "tunnel_e" = Some Samples.tunnel_e)
    by reflexivity.
  assert (H3 : op Samples.tunnel_e = call_module) by reflexivity.
  split; [exact (conj H1 (conj H2 H3))|].
  exact (apply_raises_iff Samples.gD "tunnel_e" Samples.tunnel_e H1 H2 H3).
Defined.

(** A tunnel with two users: the second assertion fails. *)
Example apply_gD :
  NewRemover._apply (NewRemover.mkApplicationPoint "tunnel_e") Samples.gD
  = (Raise AssertionError, Samples.gD).
Proof. vm_compute. reflexivity. Qed.

End NewRemoverApply.

(** ** [EpsTunnelConstructApplier._apply] *)

Section ConstructApply.
Import Torch Fx Eff.

Lemma ones_like_idemp t : ones_like (ones_like t) = ones_like t.
Proof. unfold ones_like. simpl. by rewrite <- list_fmap_compose. Qed.

Lemma submodule_of_Some g n m :
  submodule_of g n = Some m → modules g !! target n = Some m.
Proof. unfold submodule_of, target_of. by case_decide. Qed.

Lemma submodule_of_same_nodes g ms n :
  submodule_of (mkGraphModule (nodes g) ms) n
  = match target_of n with Str s => ms !! s | Callable _ => None end.
Proof. done. Qed.

Lemma targets_cons g x l :
  targets g (x :: l)
  = match find_node g x with
    | Some n => target n :: targets g l
    | None => targets g l
    end.
Proof. unfold targets. simpl. by destruct (find_node g x). Qed.

Lemma submodules_of_run g l :
  tunnel_refs g l →
  Construct.submodules_of l g = (Ok (targets g l), g).
Proof.
  unfold tunnel_refs, Construct.submodules_of.
  induction l as [|x l IH]; intros Hl; [done|].
  apply Forall_cons in Hl as [Hx Hl]. rewrite targets_cons. cbn [mapM].
  destruct (find_node g x) as [n|] eqn:Hn; [|done].
  destruct (submodule_of g n) as [m|] eqn:Hm; [|done].
  rewrite (bind_ok _ _ g (target n) g).
  - by rewrite (bind_ok _ _ g _ g (IH Hl)).
  - rewrite (bind_ok _ _ g n g) by by apply node_ref_run.
    rewrite (bind_ok _ _ g m g); [done|].
    by rewrite get_submodule_node, Hm.
Qed.

Lemma elem_of_targets g l t :
  t ∈ targets g l ↔ ∃ x n, x ∈ l ∧ find_node g x = Some n ∧ target n = t.
Proof.
  unfold targets. rewrite list_elem_of_omap. split.
  - intros (x & Hx & (n & Hn & ->)%fmap_Some). eauto.
  - intros (x & n & Hx & Hn & <-). exists x. split; [done|].
    by rewrite Hn.
Qed.

Lemma targets_tunnels g l t :
  tunnel_refs g l → t ∈ targets g l →
  ∃ ei eo, modules g !! t = Some (EpsTunnel ei eo).
Proof.
  unfold tunnel_refs. rewrite Forall_forall, elem_of_targets.
  intros Hl (x & n & Hx & Hn & <-). specialize (Hl x Hx).
  rewrite Hn in Hl.
  destruct (submodule_of g n) as [[ei eo|]|] eqn:Hm; try done.
  apply submodule_of_Some in Hm. eauto.
Qed.

(** The loop over the inbound tunnels. *)
Lemma set_eps_out_loop ts ns ms :
  (∀ t, t ∈ ts → ∃ ei eo, ms !! t = Some (EpsTunnel ei eo)) →
  ∃ ms',
    forM_ ts
      (λ t, let* m := module_ref t in
            match m with
            | EpsTunnel _ eo => set_eps_out t (ones_like eo)
            | Other => raise AttributeError
            end) (mkGraphModule ns ms)
    = (Ok tt, mkGraphModule ns ms')
    ∧ ∀ t, ms' !! t = reconcile ts [] t <$> ms !! t.
Proof.
  revert ms. induction ts as [|t0 ts IH]; intros ms Hts.
  - exists ms. split; [done|]. intros t.
    by destruct (ms !! t) as [[ei eo|]|].
  - destruct (Hts t0) as (ei0 & eo0 & H0); [left|].
    destruct (IH (<[t0 := EpsTunnel ei0 (ones_like eo0)]> ms))
      as (ms' & Hrun & Hms').
    { intros t Ht. destruct (decide (t = t0)) as [->|Hne].
      - rewrite lookup_insert_eq. eauto.
      - rewrite lookup_insert_ne by done. apply Hts. by right. }
    exists ms'. split.
    + cbn [forM_]. erewrite bind_ok; [exact Hrun|].
      erewrite bind_ok; [|unfold module_ref; cbn [modules];
                          by rewrite H0].
      unfold set_eps_out. cbn [modules nodes]. by rewrite H0.
    + intros t. rewrite Hms'. destruct (decide (t = t0)) as [->|Hne].
      * rewrite lookup_insert_eq, H0. simpl. f_equal.
        rewrite (decide_True (P := t0 ∈ t0 :: ts)) by left.
        f_equal. case_decide; [apply ones_like_idemp|done].
      * rewrite lookup_insert_ne by done.
        destruct (ms !! t) as [[ei eo|]|]; simpl; try done.
        do 2 f_equal.
        destruct (decide (t ∈ ts)) as [Hin|Hin].
        -- by rewrite decide_True by by right.
        -- rewrite decide_False; [done|].
           rewrite not_elem_of_cons. done.
Qed.

(** The loop over the outbound tunnels. *)
Lemma set_eps_in_loop ts ns ms :
  (∀ t, t ∈ ts → ∃ ei eo, ms !! t = Some (EpsTunnel ei eo)) →
  ∃ ms',
    forM_ ts
      (λ t, let* m := module_ref t in
            match m with
            | EpsTunnel ei _ => set_eps_in t (ones_like ei)
            | Other => raise AttributeError
            end) (mkGraphModule ns ms)
    = (Ok tt, mkGraphModule ns ms')
    ∧ ∀ t, ms' !! t = reconcile [] ts t <$> ms !! t.
Proof.
  revert ms. induction ts as [|t0 ts IH]; intros ms Hts.
  - exists ms. split; [done|]. intros t.
    by destruct (ms !! t) as [[ei eo|]|].
  - destruct (Hts t0) as (ei0 & eo0 & H0); [left|].
    destruct (IH (<[t0 := EpsTunnel (ones_like ei0) eo0]> ms))
      as (ms' & Hrun & Hms').
    { intros t Ht. destruct (decide (t = t0)) as [->|Hne].
      - rewrite lookup_insert_eq. eauto.
      - rewrite lookup_insert_ne by done. apply Hts. by right. }
    exists ms'. split.
    + cbn [forM_]. erewrite bind_ok; [exact Hrun|].
      erewrite bind_ok; [|unfold module_ref; cbn [modules];
                          by rewrite H0].
      unfold set_eps_in. cbn [modules nodes]. by rewrite H0.
    + intros t. rewrite Hms'. destruct (decide (t = t0)) as [->|Hne].
      * rewrite lookup_insert_eq, H0. simpl. f_equal.
        rewrite (decide_True (P := t0 ∈ t0 :: ts)) by left.
        f_equal. case_decide; [apply ones_like_idemp|done].
      * rewrite lookup_insert_ne by done.
        destruct (ms !! t) as [[ei eo|]|]; simpl; try done.
        do 2 f_equal.
        destruct (decide (t ∈ ts)) as [Hin|Hin].
        -- by rewrite decide_True by by right.
        -- rewrite decide_False; [done|].
           rewrite not_elem_of_cons. done.
Qed.

Lemma find_node_same_nodes g ms x :
  find_node (mkGraphModule (nodes g) ms) x = find_node g x.
Proof. done. Qed.

(** Setting tensors keeps every module what it is. *)
Lemma tunnel_refs_reconciled g ms' B F l :
  (∀ t, ms' !! t = reconcile B F t <$> modules g !! t) →
  tunnel_refs g l → tunnel_refs (mkGraphModule (nodes g) ms') l.
Proof.
  intros Hms Hl. unfold tunnel_refs in *.
  eapply Forall_impl; [exact Hl|]. intros x. cbv beta.
  rewrite (find_node_same_nodes g ms' x).
  destruct (find_node g x) as [n|]; [|done].
  unfold submodule_of. cbn [modules].
  destruct (target_of n) as [s|f]; [|done].
  rewrite Hms. by destruct (modules g !! s) as [[]|].
Qed.

Lemma reconcile_compose B F t m :
  reconcile [] F t (reconcile B [] t m) = reconcile B F t m.
Proof.
  destruct m as [ei eo|]; [|done]. unfold reconcile.
  by destruct (decide (t ∈ [])) as [H%elem_of_nil|_].
Qed.

(** What [_apply] does on a construct whose nodes target tunnels. *)
Lemma construct_apply_run g ap :
  tunnel_refs g (Construct.backward ap) →
  tunnel_refs g (Construct.forward ap) →
  ∃ ms',
    Construct._apply ap g = (Ok tt, mkGraphModule (nodes g) ms')
    ∧ ∀ t, ms' !! t
           = reconcile (targets g (Construct.backward ap))
                       (targets g (Construct.forward ap)) t
             <$> modules g !! t.
Proof.
  intros Hb Hf.
  destruct (set_eps_out_loop (targets g (Construct.backward ap))
              (nodes g) (modules g)) as (ms1 & Hrun1 & Hms1).
  { intros t Ht. exact (targets_tunnels g _ t Hb Ht). }
  set (g1 := mkGraphModule (nodes g) ms1) in *.
  assert (tunnel_refs g1 (Construct.forward ap)) as Hf1
    by exact (tunnel_refs_reconciled g ms1 _ _ _ Hms1 Hf).
  destruct (set_eps_in_loop (targets g (Construct.forward ap))
              (nodes g) ms1) as (ms2 & Hrun2 & Hms2).
  { intros t Ht. destruct (targets_tunnels g _ t Hf Ht) as (ei & eo & Ht').
    rewrite Hms1, Ht'. simpl. eauto. }
  exists ms2. split.
  - unfold Construct._apply.
    rewrite (bind_ok _ _ g _ g (submodules_of_run g _ Hb)).
    rewrite (bind_ok _ _ g tt g1) by (destruct g; exact Hrun1).
    rewrite (bind_ok _ _ g1 _ g1 (submodules_of_run g1 _ Hf1)).
    exact Hrun2.
  - intros t. rewrite Hms2, Hms1.
    destruct (modules g !! t) as [m|]; [|done]. simpl.
    by rewrite reconcile_compose.
Qed.

(** C5, as the code has it: on a construct whose nodes are in the graph
    and target tunnels, [_apply] returns with the nodes of the graph and
    their inputs as they were and the same submodule names; every tunnel
    targeted from [backward] has an all-ones [eps_out] and every tunnel
    targeted from [forward] an all-ones [eps_in], each of the shape it
    had; the [eps_in] of a tunnel that no [forward] node targets and the
    [eps_out] of a tunnel that no [backward] node targets are as they
    were, and so is every module that is not a tunnel. *)
Theorem construct_apply_reconciles g ap :
  tunnel_refs g (Construct.backward ap) →
  tunnel_refs g (Construct.forward ap) →
  ∃ g',
    Construct._apply ap g = (Ok tt, g')
    ∧ nodes g' = nodes g
    ∧ dom (modules g') = dom (modules g)
    ∧ (∀ t, t ∈ targets g (Construct.backward ap) →
            ∃ ei eo, modules g' !! t = Some (EpsTunnel ei eo) ∧ all_ones eo)
    ∧ (∀ t, t ∈ targets g (Construct.forward ap) →
            ∃ ei eo, modules g' !! t = Some (EpsTunnel ei eo) ∧ all_ones ei)
    ∧ (∀ t ei eo, modules g !! t = Some (EpsTunnel ei eo) →
         ∃ ei' eo',
           modules g' !! t = Some (EpsTunnel ei' eo')
           ∧ shape ei' = shape ei ∧ shape eo' = shape eo
           ∧ length (data ei') = length (data ei)
           ∧ length (data eo') = length (data eo)
           ∧ (t ∉ targets g (Construct.forward ap) → ei' = ei)
           ∧ (t ∉ targets g (Construct.backward ap) → eo' = eo))
    ∧ (∀ t, modules g !! t = Some Other → modules g' !! t = Some Other).
Proof.
  intros Hb Hf.
  destruct (construct_apply_run g ap Hb Hf) as (ms' & Hrun & Hms').
  eexists. split; [exact Hrun|]. cbn [nodes modules]. split_and!.
  - done.
  - apply set_eq. intros t. rewrite !elem_of_dom, Hms'.
    apply fmap_is_Some.
  - intros t Ht. destruct (targets_tunnels g _ t Hb Ht) as (ei & eo & Hl).
    rewrite Hms', Hl. simpl. do 2 eexists. split; [done|].
    rewrite decide_True by done. apply all_ones_ones_like.
  - intros t Ht. destruct (targets_tunnels g _ t Hf Ht) as (ei & eo & Hl).
    rewrite Hms', Hl. simpl. do 2 eexists. split; [done|].
    rewrite decide_True by done. apply all_ones_ones_like.
  - intros t ei eo Hl. rewrite Hms', Hl. simpl. do 2 eexists.
    split; [done|]. split_and!.
    + by case_decide.
    + by case_decide.
    + case_decide; [apply length_ones_like|done].
    + case_decide; [apply length_ones_like|done].
    + intros Hn. by rewrite decide_False.
    + intros Hn. by rewrite decide_False.
  - intros t Hl. by rewrite Hms', Hl.
Qed.

Lemma construct_apply_reconciles_witness :
  (tunnel_refs Samples.gC ["tunnel_c"] ∧ tunnel_refs Samples.gC ["tunnel_d"])
  ∧ ∃ g',
      Construct._apply (Construct.mkConstruct ["tunnel_c"] ["tunnel_d"])
        Samples.gC = (Ok tt, g')
      ∧ nodes g' = nodes Samples.gC
      ∧ dom (modules g') = dom (modules Samples.gC)
      ∧ (∀ t, t ∈ targets Samples.gC ["tunnel_c"] →
              ∃ ei eo, modules g' !! t = Some (EpsTunnel ei eo) ∧ all_ones eo)
      ∧ (∀ t, t ∈ targets Samples.gC ["tunnel_d"] →
              ∃ ei eo, modules g' !! t = Some (EpsTunnel ei eo) ∧ all_ones ei)
      ∧ (∀ t ei eo, modules Samples.gC !! t = Some (EpsTunnel ei eo) →
           ∃ ei' eo',
             modules g' !! t = Some (EpsTunnel ei' eo')
             ∧ shape ei' = shape ei ∧ shape eo' = shape eo
             ∧ length (data ei') = length (data ei)
             ∧ length (data eo') = length (data eo)
             ∧ (t ∉ targets Samples.gC ["tunnel_d"] → ei' = ei)
             ∧ (t ∉ targets Samples.gC ["tunnel_c"] → eo' = eo))
      ∧ (∀ t, modules Samples.gC !! t = Some Other →
              modules g' !! t = Some Other).
Proof.
  assert (H1 : tunnel_refs Samples.gC ["tunnel_c"])
    by (apply (bool_decide_unpack _); vm_compute; exact I).
  assert (H2 : tunnel_refs Samples.gC ["tunnel_d"])
    by (apply (bool_decide_unpack _); vm_compute; exact I).
  split; [exact (conj H1 H2)|].
  exact (construct_apply_reconciles Samples.gC
           (Construct.mkConstruct ["tunnel_c"] ["tunnel_d"]) H1 H2).
Defined.

(** On [gC] with [TunnelC] entering and [TunnelD] leaving the construct:
    [TunnelC] goes from [(0.5, 1.0)] to [(0.5, 1.0)] and the [eps_in] of
    [TunnelD] from [0.5] per channel to [1.0] per channel, in the shape
    it had. *)
Example construct_apply_gC :
  Construct._apply (Construct.mkConstruct ["tunnel_c"] ["tunnel_d"]) Samples.gC
  = (Ok tt,
     mkGraphModule (nodes Samples.gC)
       {[ "tunnel_c" := EpsTunnel (vec [half]) (vec [one]);
          "relu" := Other;
          "tunnel_d" := EpsTunnel (mkTensor [1; 2; 1; 1] [one; one])
                                  (mkTensor [1; 2; 1; 1] [half; half]) ]}).
Proof. vm_compute. reflexivity. Qed.

(** C5, as stated, fails when a tunnel module is targeted from both
    sides.  In [gE] the nodes [tunnel_1] and [tunnel_2] call one module;
    with [tunnel_1] in [backward] and [tunnel_2] in [forward], the
    [eps_in] of the tunnel targeted from [backward] goes from [0.5] to
    [1.0]. *)
Lemma construct_apply_shared_tunnel :
  tunnel_refs Samples.gE ["tunnel_1"]
  ∧ tunnel_refs Samples.gE ["tunnel_2"]
  ∧ targets Samples.gE ["tunnel_1"] = ["tunnel"]
  ∧ modules Samples.gE !! "tunnel"
    = Some (EpsTunnel (vec [half]) (vec [half]))
  ∧ ∃ g',
      Construct._apply (Construct.mkConstruct ["tunnel_1"] ["tunnel_2"])
        Samples.gE = (Ok tt, g')
      ∧ modules g' !! "tunnel" = Some (EpsTunnel (vec [one]) (vec [one]))
      ∧ vec [one] ≠ vec [half].
Proof.
  split_and!.
  - apply (bool_decide_unpack _). vm_compute. exact I.
  - apply (bool_decide_unpack _). vm_compute. exact I.
  - reflexivity.
  - reflexivity.
  - eexists. split_and!.
    + vm_compute. reflexivity.
    + reflexivity.
    + discriminate.
Qed.

End ConstructApply.

(** * Further properties of the rewriting passes *)

(** ** The finders *)

Section FinderFacts.
Import Torch Fx Eff.

(** A read-only filter keeps a sublist, in order. *)
Lemma filterM_sublist {A} (p : A → M bool) l g r :
  (∀ x, readonly (p x)) →
  (filterM p l g).1 = Ok r → r `sublist_of` l.
Proof.
  intros Hro. revert r. induction l as [|y l IH]; simpl; intros r Hr.
  - by inversion Hr.
  - apply bind_ok_inv in Hr as (b & _ & Hr); [|apply Hro].
    apply bind_ok_inv in Hr as (r' & Hr' & Hr);
      [|by apply readonly_filterM].
    injection Hr as <-. specialize (IH r' Hr').
    destruct b; [by apply sublist_skip|by apply sublist_cons].
Qed.

(** What [find] returns always passes [check_aps_commutativity]: the
    finder never produces a batch that its own check rejects. *)
Theorem find_passes_check_aps_commutativity g aps :
  (Remover.find g).1 = Ok aps →
  Remover.check_aps_commutativity aps = true.
Proof.
  intros Hfind. unfold Remover.find in Hfind.
  apply bind_ok_inv in Hfind as (g0 & [= <-] & Hfind);
    [|apply readonly_get].
  apply bind_ok_inv in Hfind as (epstunnels & _ & Hfind).
  2:{ apply readonly_filterM. intros n.
      apply readonly_bind; [apply readonly_get_submodule|].
      intros m. apply readonly_ret. }
  apply bind_ok_inv in Hfind as (identitytunnels & _ & Hfind);
    [|apply readonly_filterM, readonly_is_identity_epstunnel].
  apply bind_ok_inv in Hfind as (integerisedplhl & _ & Hfind);
    [|apply readonly_filterM, readonly_is_integerised_placeholder].
  apply bind_ok_inv in Hfind as (r & Hr & [= <-]);
    [|apply readonly_filterM, readonly_is_output_node].
  apply check_aps_commutativity_NoDup.
  rewrite node_of_application_points.
  pose proof (filterM_sublist _ _ _ _ readonly_is_output_node Hr) as Hsub.
  eapply sublist_NoDup; [|exact Hsub]. apply NoDup_elements.
Qed.

Lemma find_passes_check_aps_commutativity_witness :
  (Remover.find Samples.gC).1 = Ok [Remover.mkEpsTunnelNode "tunnel_c"]
  ∧ Remover.check_aps_commutativity [Remover.mkEpsTunnelNode "tunnel_c"]
    = true.
Proof.
  assert (H1 : (Remover.find Samples.gC).1
               = Ok [Remover.mkEpsTunnelNode "tunnel_c"])
    by (vm_compute; reflexivity).
  split; [exact H1|].
  exact (find_passes_check_aps_commutativity Samples.gC _ H1).
Defined.

Lemma dangling_target_elem g :
  dangling_target g ↔
  ∃ n, n ∈ nodes g ∧ op n = call_module ∧ modules g !! target n = None.
Proof. unfold dangling_target. rewrite Exists_exists. naive_solver. Qed.

(** A [call_module] node whose target the graph module does not own makes
    both finders raise [AttributeError], whatever else the graph holds;
    the graph module is left as it is. *)
Theorem find_dangling_target_raises g :
  dangling_target g →
  Remover.find g = (Raise AttributeError, g)
  ∧ NewRemover.find true g = (Raise AttributeError, g).
Proof.
  intros (n & Hn & Hop & Hnone)%dangling_target_elem. split.
  - unfold Remover.find. rewrite (bind_ok _ _ g g g) by done.
    apply bind_raise.
    apply (filterM_raise_any _ _ AttributeError g n).
    + intros m _. unfold bind. rewrite get_submodule_node.
      destruct (submodule_of g m); [left; eauto|by right].
    + apply list_elem_of_filter. split; [by apply call_module_class|done].
    + unfold bind. by rewrite get_submodule_call_module, Hnone.
  - unfold NewRemover.find. rewrite (bind_ok _ _ g g g) by done.
    apply bind_raise.
    apply (filterM_raise_any _ _ AttributeError g n).
    + intros m _. case_bool_decide; [|left; eauto].
      unfold bind, NewRemover.nnmodule_from_fxnode.
      rewrite get_submodule_node.
      destruct (submodule_of g m); [left; eauto|by right].
    + done.
    + rewrite bool_decide_eq_true_2 by by apply call_module_class.
      by rewrite (bind_raise _ _ g AttributeError g)
        by by apply nnmodule_from_fxnode_missing.
Qed.

Lemma find_force_dangling g :
  (∃ n, n ∈ nodes g ∧ op n = call_module ∧ modules g !! target n = None) →
  NewRemover.find true g = (Raise AttributeError, g).
Proof.
  intros (n & Hn & Hop & Hnone).
  unfold NewRemover.find. rewrite (bind_ok _ _ g g g) by done.
  apply bind_raise.
  apply (filterM_raise_any _ _ AttributeError g n).
  - intros m _. case_bool_decide; [|left; eauto].
    unfold bind, NewRemover.nnmodule_from_fxnode.
    rewrite get_submodule_node.
    destruct (submodule_of g m); [left; eauto|by right].
  - done.
  - rewrite bool_decide_eq_true_2 by by apply call_module_class.
    by rewrite (bind_raise _ _ g AttributeError g)
      by by apply nnmodule_from_fxnode_missing.
Qed.

Lemma find_dangling_target_raises_witness :
  dangling_target Samples.gG
  ∧ Remover.find Samples.gG = (Raise AttributeError, Samples.gG)
  ∧ NewRemover.find true Samples.gG = (Raise AttributeError, Samples.gG).
Proof.
  assert (H1 : dangling_target Samples.gG)
    by (apply (bool_decide_unpack _); vm_compute; exact I).
  split; [exact H1|]. exact (find_dangling_target_raises Samples.gG H1).
Defined.

Lemma filter_sublist_impl {A} (P Q : A → Prop)
    `{∀ x, Decision (P x)} `{∀ x, Decision (Q x)} (l : list A) :
  (∀ x, P x → Q x) → filter P l `sublist_of` filter Q l.
Proof.
  intros HPQ. induction l as [|y l IH]; [done|].
  rewrite !filter_cons. destruct (decide (P y)) as [HP|HP].
  - rewrite decide_True by auto. by apply sublist_skip.
  - destruct (decide (Q y)); [by apply sublist_cons|done].
Qed.

(** The conservative mode of [EpsTunnelRemover.find] returns a sublist,
    in the same order, of what the force mode returns. *)
Theorem find_conservative_sublist_force g :
  targets_resolve g = true → eps_comparable g →
  ∃ aps_c aps_f,
    NewRemover.find false g = (Ok aps_c, g)
    ∧ NewRemover.find true g = (Ok aps_f, g)
    ∧ aps_c `sublist_of` aps_f.
Proof.
  intros Hres Hcmp. do 2 eexists.
  split; [by apply find_conservative|]. split; [by apply find_force|].
  apply fmap_sublist, filter_sublist_impl.
  intros n [Hop Hm]. split; [done|].
  by destruct (modules g !! target n) as [[]|].
Qed.

Lemma find_conservative_sublist_force_witness :
  (targets_resolve Samples.gC = true ∧ eps_comparable Samples.gC)
  ∧ ∃ aps_c aps_f,
      NewRemover.find false Samples.gC = (Ok aps_c, Samples.gC)
      ∧ NewRemover.find true Samples.gC = (Ok aps_f, Samples.gC)
      ∧ aps_c `sublist_of` aps_f.
Proof.
  assert (H1 : targets_resolve Samples.gC = true) by reflexivity.
  assert (H2 : eps_comparable Samples.gC)
    by (apply (bool_decide_unpack _); vm_compute; exact I).
  split; [exact (conj H1 H2)|].
  exact (find_conservative_sublist_force Samples.gC H1 H2).
Defined.

End FinderFacts.

(** ** What [EpsTunnelRemover._apply] keeps *)

Section SpliceFacts.
Import Torch Fx Eff.

Lemma rewired_fields old new m :
  name (rewired old new m) = name m
  ∧ op (rewired old new m) = op m
  ∧ target (rewired old new m) = target m.
Proof. done. Qed.

Lemma topological_splice x p dn seen seen' (l : list Node) :
  p ≠ x →
  topological seen l = true →
  (∀ a, a ∈ seen → a ≠ x → a ∈ seen') →
  (∀ a, a ∈ seen' → a ∈ seen) →
  (x ∈ seen → p ∈ seen') →
  (∀ m, m ∈ l → name m = x → p ∈ args m) →
  (∀ m, m ∈ l → x ∈ args m → name m = dn) →
  topological seen'
    ((λ m, if decide (name m = dn) then rewired x p m else m)
       <$> filter (λ m, name m ≠ x) l) = true.
Proof.
  intros Hpx. revert seen seen'.
  induction l as [|m l IH]; intros seen seen' Htopo Hin Hsub Hp Hn Hd;
    [done|].
  simpl in Htopo. apply andb_true_iff in Htopo as [Htopo Htail].
  apply andb_true_iff in Htopo as [Hfresh%bool_decide_eq_true Hargs].
  rewrite forallb_forall in Hargs.
  assert (Hargs' : ∀ a, a ∈ args m → a ∈ seen).
  { intros a Ha. eapply bool_decide_eq_true, Hargs. by apply list_elem_of_In. }
  destruct (decide (name m = x)) as [Heq|Hne].
  - rewrite filter_cons_False by tauto.
    apply (IH (name m :: seen) seen'); [done|..].
    + intros a [->|Ha]%elem_of_cons Hax; [done|by apply Hin].
    + intros a Ha. right. by apply Hsub.
    + intros _. apply Hin; [|done]. apply Hargs', Hn; [left|done].
    + intros m' Hm'. apply Hn. by right.
    + intros m' Hm'. apply Hd. by right.
  - rewrite filter_cons_True by done. rewrite fmap_cons.
    assert (Htail' :
      topological (name m :: seen')
        ((λ m0, if decide (name m0 = dn) then rewired x p m0 else m0)
           <$> filter (λ m0, name m0 ≠ x) l) = true).
    { apply (IH (name m :: seen) (name m :: seen')); [done|..].
      * intros a [->|Ha]%elem_of_cons Hax; [left|right; by apply Hin].
      * intros a [->|Ha]%elem_of_cons; [left|right; by apply Hsub].
      * intros [Hx|Hx]%elem_of_cons; [by destruct Hne|right; by apply Hp].
      * intros m' Hm'. apply Hn. by right.
      * intros m' Hm'. apply Hd. by right. }
    assert (Hfresh' : name m ∉ seen').
    { intros Hs. apply Hfresh. by apply Hsub. }
    destruct (decide (name m = dn)) as [Hdn|Hdn].
    + cbn [topological rewired name args].
      rewrite Htail', bool_decide_eq_true_2 by done.
      rewrite andb_true_r. simpl. apply forallb_forall.
      intros a' (a & -> & Ha)%list_elem_of_In%list_elem_of_fmap.
      apply bool_decide_eq_true. case_decide as Hx.
      * subst a. by apply Hp, Hargs'.
      * by apply Hin; [apply Hargs'|].
    + cbn [topological].
      rewrite Htail', bool_decide_eq_true_2 by done.
      rewrite andb_true_r. simpl. apply forallb_forall.
      intros a Ha%list_elem_of_In. apply bool_decide_eq_true.
      apply Hin; [by apply Hargs'|]. intros ->.
      apply Hdn, Hd; [left|done].
Qed.

Lemma spliced_topological g n p d :
  topological [] (nodes g) = true → n ∈ nodes g →
  all_input_nodes n = [p] → users g (name n) = [d] →
  topological [] (nodes (spliced g n p (name d))) = true.
Proof.
  intros Htopo Hn Hin Hus. unfold spliced. cbn [nodes].
  assert (p ∈ args n) as Hp.
  { apply elem_of_remove_dups. unfold all_input_nodes in Hin.
    rewrite Hin. left. }
  apply (topological_splice (name n) p (name d) [] []); try done.
  - intros ->. by apply (topological_no_self g n).
  - intros Hx. by apply elem_of_nil in Hx.
  - intros m Hm Heq.
    by rewrite (NoDup_name_inj (nodes g) m n (topological_NoDup g Htopo)
                  Hm Hn Heq).
  - intros m Hm Hx. assert (m ∈ users g (name n)) as Hmu.
    { by apply list_elem_of_filter. }
    rewrite Hus in Hmu. by apply list_elem_of_singleton in Hmu as ->.
Qed.

(** [_apply] on a [call_module] node with one input node and one user
    leaves the graph in topological order with unique names: the user
    that took the node now takes a node that is defined before it. *)
Theorem apply_preserves_topological g x n p d :
  topological [] (nodes g) = true →
  find_node g x = Some n → op n = call_module →
  all_input_nodes n = [p] → users g x = [d] →
  ∃ g',
    NewRemover._apply (NewRemover.mkApplicationPoint x) g = (Ok tt, g')
    ∧ topological [] (nodes g') = true
    ∧ NoDup (name <$> nodes g').
Proof.
  intros Htopo Hfind Hop Hin Hus. exists (spliced g n p (name d)).
  split; [apply _apply_run; by rewrite ?Hop|].
  destruct (find_node_Some _ _ _ Hfind) as [Hn <-].
  pose proof (spliced_topological g n p d Htopo Hn Hin Hus) as Ht.
  split; [done|]. by apply topological_NoDup.
Qed.

Lemma apply_preserves_topological_witness :
  (topological [] (nodes Samples.gD2) = true
   ∧ find_node Samples.gD2 "tunnel_h" = Some Samples.tunnel_h
   ∧ op Samples.tunnel_h = call_module
   ∧ all_input_nodes Samples.tunnel_h = ["add"]
   ∧ users Samples.gD2 "tunnel_h"
     = [mkNode "mul" call_function "mul" ["tunnel_h"; "tunnel_h"]])
  ∧ ∃ g',
      NewRemover._apply (NewRemover.mkApplicationPoint "tunnel_h") Samples.gD2
      = (Ok tt, g')
      ∧ topological [] (nodes g') = true
      ∧ NoDup (name <$> nodes g').
Proof.
  assert (H1 : topological [] (nodes Samples.gD2) = true) by reflexivity.
  assert (H2 : find_node Samples.gD2 "tunnel_h" = Some Samples.tunnel_h)
    by reflexivity.
  assert (H3 : op Samples.tunnel_h = call_module) by reflexivity.
  assert (H4 : all_input_nodes Samples.tunnel_h = ["add"]) by reflexivity.
  assert (H5 : users Samples.gD2 "tunnel_h"
               = [mkNode "mul" call_function "mul" ["tunnel_h"; "tunnel_h"]])
    by reflexivity.
  split; [exact (conj H1 (conj H2 (conj H3 (conj H4 H5))))|].
  exact (apply_preserves_topological Samples.gD2 "tunnel_h" Samples.tunnel_h
           "add" _ H1 H2 H3 H4 H5).
Defined.

Lemma targets_resolve_intro g :
  (∀ m, m ∈ nodes g → op m = call_module → is_Some (modules g !! target m)) →
  targets_resolve g = true.
Proof.
  intros H. unfold targets_resolve. apply forallb_forall.
  intros m Hm%list_elem_of_In.
  destruct (decide (op m = call_module)) as [Hop|Hop].
  - rewrite (bool_decide_eq_true_2 (is_Some _)) by auto. apply orb_true_r.
  - rewrite bool_decide_eq_false_2; [done|]. by rewrite call_module_class.
Qed.

Lemma elem_of_spliced_nodes g n p d m' :
  m' ∈ nodes (spliced g n p d) →
  ∃ m, m ∈ nodes g ∧ name m ≠ name n
       ∧ name m' = name m ∧ op m' = op m ∧ target m' = target m.
Proof.
  unfold spliced. cbn [nodes].
  intros (m & -> & [Hne Hm]%list_elem_of_filter)%list_elem_of_fmap.
  exists m. split_and!; try done; by case_decide.
Qed.

Lemma spliced_node_elem g n p d m :
  m ∈ nodes g → name m ≠ name n →
  ∃ m', m' ∈ nodes (spliced g n p d)
        ∧ name m' = name m ∧ op m' = op m ∧ target m' = target m.
Proof.
  intros Hm Hne. eexists. split.
  - unfold spliced. cbn [nodes].
    apply list_elem_of_fmap_2, list_elem_of_filter. done.
  - cbv beta. by case_decide.
Qed.

Lemma sole_caller_elem g n m :
  sole_caller g n → m ∈ nodes g → op m = call_module →
  below (target n) (target m) = true → name m = name n.
Proof. unfold sole_caller. rewrite Forall_forall. auto. Qed.

Lemma sole_caller_other g n m :
  sole_caller g n → m ∈ nodes g → op m = call_module →
  name m ≠ name n → below (target n) (target m) = false.
Proof.
  intros Hsole Hm Hop Hne. apply not_true_is_false. intros Hb.
  by apply Hne, (sole_caller_elem g n m).
Qed.

Lemma spliced_targets_resolve g n p d :
  targets_resolve g = true →
  targets_resolve (spliced g n p d) = true ↔ sole_caller g n.
Proof.
  intros Hres. split.
  - intros Hres'. apply Forall_forall. intros m Hm Hop Ht.
    destruct (decide (name m = name n)) as [|Hne]; [done|].
    destruct (spliced_node_elem g n p d m Hm Hne)
      as (m' & Hm' & _ & Hop' & Ht').
    destruct (targets_resolve_elem _ m' Hres' Hm') as [o Ho];
      [congruence|].
    unfold spliced in Ho. cbn [modules] in Ho.
    by rewrite Ht', lookup_delete_below, Ht in Ho.
  - intros Hsole. apply targets_resolve_intro. intros m' Hm' Hop'.
    destruct (elem_of_spliced_nodes _ _ _ _ _ Hm')
      as (m & Hm & Hne & _ & Hop & Ht).
    unfold spliced. cbn [modules]. rewrite Ht, lookup_delete_below.
    rewrite (sole_caller_other g n m Hsole Hm) by congruence.
    apply (targets_resolve_elem g m Hres Hm). congruence.
Qed.

(** [_apply] deletes the submodule of the node it removes, and what is
    registered below it, whoever else calls it.  After [_apply] on a
    [call_module] node of a graph module that passed [lint], the result
    passes [lint] (topological order, every [call_module] target owned)
    exactly when no other [call_module] node called that submodule or
    one below it; otherwise a node is left with a target that the graph
    module no longer owns, and [find] raises on the result. *)
Theorem apply_keeps_targets_iff_sole_caller g x n p d :
  lint g = true →
  find_node g x = Some n → op n = call_module →
  all_input_nodes n = [p] → users g x = [d] →
  ∃ g',
    NewRemover._apply (NewRemover.mkApplicationPoint x) g = (Ok tt, g')
    ∧ (lint g' = true ↔ sole_caller g n)
    ∧ (¬ sole_caller g n →
       NewRemover.find true g' = (Raise AttributeError, g')).
Proof.
  intros [Htopo Hres]%lint_inv Hfind Hop Hin Hus.
  exists (spliced g n p (name d)).
  split; [apply _apply_run; by rewrite ?Hop|].
  destruct (find_node_Some _ _ _ Hfind) as [Hn <-].
  pose proof (spliced_topological g n p d Htopo Hn Hin Hus) as Ht.
  pose proof (spliced_targets_resolve g n p (name d) Hres) as Hiff.
  split.
  - unfold lint. rewrite Ht. simpl. exact Hiff.
  - intros Hns.
    assert (¬ targets_resolve (spliced g n p (name d)) = true) as Hnr
      by by rewrite Hiff.
    apply find_force_dangling.
    destruct (decide (dangling_target (spliced g n p (name d))))
      as [Hd%dangling_target_elem|Hd]; [done|].
    destruct Hnr. apply targets_resolve_intro. intros m Hm Hopm.
    destruct (modules (spliced g n p (name d)) !! target m) eqn:Hl; [eauto|].
    destruct Hd. apply dangling_target_elem. eauto.
Qed.

Lemma apply_keeps_targets_iff_sole_caller_witness :
  (lint Samples.gE = true
   ∧ find_node Samples.gE "tunnel_1"
     = Some (mkNode "tunnel_1" call_module "tunnel" ["x"])
   ∧ op (mkNode "tunnel_1" call_module "tunnel" ["x"]) = call_module
   ∧ all_input_nodes (mkNode "tunnel_1" call_module "tunnel" ["x"]) = ["x"]
   ∧ users Samples.gE "tunnel_1"
     = [mkNode "relu" call_module "relu" ["tunnel_1"]])
  ∧ ∃ g',
      NewRemover._apply (NewRemover.mkApplicationPoint "tunnel_1") Samples.gE
      = (Ok tt, g')
      ∧ (lint g' = true
         ↔ sole_caller Samples.gE (mkNode "tunnel_1" call_module "tunnel" ["x"]))
      ∧ (¬ sole_caller Samples.gE (mkNode "tunnel_1" call_module "tunnel" ["x"])
         → NewRemover.find true g' = (Raise AttributeError, g')).
Proof.
  assert (H1 : lint Samples.gE = true) by reflexivity.
  assert (H2 : find_node Samples.gE "tunnel_1"
               = Some (mkNode "tunnel_1" call_module "tunnel" ["x"]))
    by reflexivity.
  assert (H3 : op (mkNode "tunnel_1" call_module "tunnel" ["x"]) = call_module)
    by reflexivity.
  assert (H4 : all_input_nodes (mkNode "tunnel_1" call_module "tunnel" ["x"])
               = ["x"]) by reflexivity.
  assert (H5 : users Samples.gE "tunnel_1"
               = [mkNode "relu" call_module "relu" ["tunnel_1"]])
    by reflexivity.
  split; [exact (conj H1 (conj H2 (conj H3 (conj H4 H5))))|].
  exact (apply_keeps_targets_iff_sole_caller Samples.gE "tunnel_1" _ "x" _
           H1 H2 H3 H4 H5).
Defined.

(** Removing the first of two nodes that call one tunnel leaves the second
    without its submodule. *)
Example apply_gE_then_find :
  ∃ g',
    NewRemover._apply (NewRemover.mkApplicationPoint "tunnel_1") Samples.gE
    = (Ok tt, g')
    ∧ NewRemover.find true g' = (Raise AttributeError, g').
Proof. eexists. split; vm_compute; reflexivity. Qed.

(** Removing a node that calls [blk] deletes [blk.inner] with it and
    leaves the node that calls [blk.inner] without its submodule. *)
Example apply_gM :
  NewRemover._apply (NewRemover.mkApplicationPoint "blk") Samples.gM
  = (Ok tt,
     mkGraphModule
       [ mkNode "x" placeholder "x" [];
         mkNode "blk_inner" call_module "blk.inner" ["x"];
         mkNode "output" output "output" ["blk_inner"] ]
       ∅).
Proof. vm_compute. reflexivity. Qed.

Lemma filter_ext_elem {A} (P Q : A → Prop)
    `{∀ x, Decision (P x)} `{∀ x, Decision (Q x)} (l : list A) :
  (∀ x, x ∈ l → P x ↔ Q x) → filter P l = filter Q l.
Proof.
  induction l as [|y l IH]; intros Hl; [done|].
  rewrite !filter_cons, IH by (intros; apply Hl; by right).
  destruct (decide (P y)) as [HP|HP].
  - rewrite decide_True; [done|]. by apply (Hl y); [left|].
  - rewrite decide_False; [done|]. intros HQ. apply HP.
    by apply (Hl y); [left|].
Qed.

Lemma filter_fmap {A B} (h : A → B) (P : B → Prop)
    `{∀ x, Decision (P x)} (l : list A) :
  filter P (h <$> l) = h <$> filter (λ x, P (h x)) l.
Proof.
  induction l as [|y l IH]; [done|].
  rewrite fmap_cons, !filter_cons, IH. by destruct (decide (P (h y))).
Qed.

Lemma on_tunnel_spliced g n p d P m :
  sole_caller g n → m ∈ nodes g → name m ≠ name n →
  on_tunnel (spliced g n p d) P
    (if decide (name m = d) then rewired (name n) p m else m)
  ↔ on_tunnel g P m.
Proof.
  intros Hsole Hm Hne. unfold on_tunnel, spliced. cbn [modules].
  assert (Hf : op (if decide (name m = d)
                   then rewired (name n) p m else m) = op m
               ∧ target (if decide (name m = d)
                         then rewired (name n) p m else m) = target m)
    by (by case_decide).
  destruct Hf as [-> ->].
  split; intros [Hop Hmod]; (split; [done|]).
  - by rewrite lookup_delete_below,
      (sole_caller_other g n m Hsole Hm Hop Hne) in Hmod.
  - by rewrite lookup_delete_below,
      (sole_caller_other g n m Hsole Hm Hop Hne).
Qed.

Lemma spliced_candidates g n p d P `{∀ a b, Decision (P a b)} :
  sole_caller g n →
  ap_of <$> filter (on_tunnel (spliced g n p d) P) (nodes (spliced g n p d))
  = filter (λ ap, NewRemover.apcore ap ≠ name n)
      (ap_of <$> filter (on_tunnel g P) (nodes g)).
Proof.
  intros Hsole.
  set (f := λ m : Node,
         if decide (name m = d) then rewired (name n) p m else m).
  assert (Hnodes : nodes (spliced g n p d)
                   = f <$> filter (λ m, name m ≠ name n) (nodes g))
    by reflexivity.
  assert (Hf : ∀ m, ap_of (f m) = ap_of m).
  { intros m. unfold ap_of, f. by case_decide. }
  rewrite Hnodes, (filter_fmap f), <- list_fmap_compose.
  rewrite (filter_fmap ap_of).
  rewrite (list_filter_filter _ (λ m, name m ≠ name n)).
  rewrite (list_filter_filter _ (on_tunnel g P)).
  rewrite (filter_ext_elem
             (λ m, on_tunnel (spliced g n p d) P (f m) ∧ name m ≠ name n)
             (λ m, NewRemover.apcore (ap_of m) ≠ name n ∧ on_tunnel g P m)).
  - apply list_fmap_ext. intros i m _. apply Hf.
  - intros m Hm. cbn [ap_of NewRemover.apcore]. split.
    + intros [Hon Hne]. split; [done|].
      by apply (on_tunnel_spliced g n p d P m Hsole Hm Hne).
    + intros [Hne Hon]. split; [|done].
      by apply (on_tunnel_spliced g n p d P m Hsole Hm Hne).
Qed.

Lemma eps_comparable_spliced g n p d :
  eps_comparable g → eps_comparable (spliced g n p d).
Proof.
  unfold eps_comparable, spliced. cbn [modules].
  intros Hcmp t m [Hm _]%map_lookup_filter_Some.
  exact (Hcmp t m Hm).
Qed.

(** Once [_apply] has removed a [call_module] node that is the sole
    caller of its submodule, [find] on the result returns the application
    points it returned before, without the one applied and in the same
    order: the other application points of a batch stay valid.  This
    holds with and without [force]. *)
Theorem find_after_apply g x n p d :
  lint g = true → eps_comparable g →
  find_node g x = Some n → op n = call_module →
  all_input_nodes n = [p] → users g x = [d] →
  sole_caller g n →
  ∃ g' aps_f aps_c,
    NewRemover.find true g = (Ok aps_f, g)
    ∧ NewRemover.find false g = (Ok aps_c, g)
    ∧ NewRemover._apply (NewRemover.mkApplicationPoint x) g = (Ok tt, g')
    ∧ NewRemover.find true g'
      = (Ok (filter (λ ap, NewRemover.apcore ap ≠ x) aps_f), g')
    ∧ NewRemover.find false g'
      = (Ok (filter (λ ap, NewRemover.apcore ap ≠ x) aps_c), g').
Proof.
  intros [Htopo Hres]%lint_inv Hcmp Hfind Hop Hin Hus Hsole.
  exists (spliced g n p (name d)). do 2 eexists.
  split; [by apply find_force|]. split; [by apply find_conservative|].
  split; [apply _apply_run; by rewrite ?Hop|].
  destruct (find_node_Some _ _ _ Hfind) as [Hn <-].
  assert (targets_resolve (spliced g n p (name d)) = true) as Hres'
    by by apply spliced_targets_resolve.
  assert (eps_comparable (spliced g n p (name d))) as Hcmp'
    by by apply eps_comparable_spliced.
  split.
  - rewrite (find_force _ Hres'). do 2 f_equal.
    by apply (spliced_candidates g n p (name d) (λ _ _, True)).
  - rewrite (find_conservative _ Hres' Hcmp'). do 2 f_equal.
    by apply (spliced_candidates g n p (name d) torch_equal).
Qed.

Lemma find_after_apply_witness :
  (lint Samples.gC = true ∧ eps_comparable Samples.gC
   ∧ find_node Samples.gC "tunnel_c"
     = Some (mkNode "tunnel_c" call_module "tunnel_c" ["x"])
   ∧ op (mkNode "tunnel_c" call_module "tunnel_c" ["x"]) = call_module
   ∧ all_input_nodes (mkNode "tunnel_c" call_module "tunnel_c" ["x"]) = ["x"]
   ∧ users Samples.gC "tunnel_c"
     = [mkNode "relu" call_module "relu" ["tunnel_c"]]
   ∧ sole_caller Samples.gC (mkNode "tunnel_c" call_module "tunnel_c" ["x"]))
  ∧ ∃ g' aps_f aps_c,
      NewRemover.find true Samples.gC = (Ok aps_f, Samples.gC)
      ∧ NewRemover.find false Samples.gC = (Ok aps_c, Samples.gC)
      ∧ NewRemover._apply (NewRemover.mkApplicationPoint "tunnel_c")
          Samples.gC = (Ok tt, g')
      ∧ NewRemover.find true g'
        = (Ok (filter (λ ap, NewRemover.apcore ap ≠ "tunnel_c") aps_f), g')
      ∧ NewRemover.find false g'
        = (Ok (filter (λ ap, NewRemover.apcore ap ≠ "tunnel_c") aps_c), g').
Proof.
  assert (H1 : lint Samples.gC = true) by reflexivity.
  assert (H2 : eps_comparable Samples.gC)
    by (apply (bool_decide_unpack _); vm_compute; exact I).
  assert (H3 : find_node Samples.gC "tunnel_c"
               = Some (mkNode "tunnel_c" call_module "tunnel_c" ["x"]))
    by reflexivity.
  assert (H4 : op (mkNode "tunnel_c" call_module "tunnel_c" ["x"])
               = call_module) by reflexivity.
  assert (H5 : all_input_nodes (mkNode "tunnel_c" call_module "tunnel_c" ["x"])
               = ["x"]) by reflexivity.
  assert (H6 : users Samples.gC "tunnel_c"
               = [mkNode "relu" call_module "relu" ["tunnel_c"]])
    by reflexivity.
  assert (H7 : sole_caller Samples.gC
                 (mkNode "tunnel_c" call_module "tunnel_c" ["x"]))
    by (apply (bool_decide_unpack _); vm_compute; exact I).
  split;
    [exact (conj H1 (conj H2 (conj H3 (conj H4 (conj H5 (conj H6 H7))))))|].
  exact (find_after_apply Samples.gC "tunnel_c" _ "x" _
           H1 H2 H3 H4 H5 H6 H7).
Defined.

(** On the two tunnels of [gC]: once the first is removed, [find] with
    [force] returns the second alone. *)
Example removal_gC_then_find :
  ∃ g',
    NewRemover._apply (NewRemover.mkApplicationPoint "tunnel_c") Samples.gC
    = (Ok tt, g')
    ∧ NewRemover.find true g'
      = (Ok [NewRemover.mkApplicationPoint "tunnel_d"], g').
Proof. eexists. split; vm_compute; reflexivity. Qed.

(** [_apply] on a [call_function] node with one input node and one user
    does not return: the target of such a node is a callable, on which
    [delete_submodule] raises [AttributeError].  By then the user is
    rewired, so the graph that is left is not the one that was given;
    the node is still in it, without users, and no submodule is
    deleted. *)
Theorem apply_on_call_function_raises g x n p d :
  topological [] (nodes g) = true →
  find_node g x = Some n → op n = call_function →
  all_input_nodes n = [p] → users g x = [d] →
  ∃ g',
    NewRemover._apply (NewRemover.mkApplicationPoint x) g
    = (Raise AttributeError, g')
    ∧ g' ≠ g
    ∧ modules g' = modules g
    ∧ n ∈ nodes g'
    ∧ users g' x = []
    ∧ ∃ d', d' ∈ nodes g' ∧ name d' = name d
            ∧ args d' = (λ a, if decide (a = x) then p else a) <$> args d.
Proof.
  intros Htopo Hfind Hop Hin Hus.
  rewrite (_apply_callable g x n p d Htopo Hfind Hop Hin Hus).
  destruct (find_node_Some _ _ _ Hfind) as [Hn <-].
  pose proof (no_users_after_replace g n p d Htopo Hn Hin Hus) as Hno.
  assert (d ∈ nodes g ∧ name n ∈ args d) as [Hd Hda].
  { assert (d ∈ users g (name n)) as Hdu by (rewrite Hus; left).
    apply list_elem_of_filter in Hdu. tauto. }
  eexists. split; [done|]. split_and!.
  - intros Heq. rewrite Heq, Hus in Hno. done.
  - done.
  - cbn [nodes]. apply (list_elem_of_fmap_2' _ _ n); [done|].
    rewrite decide_False; [done|]. intros Heq.
    apply (topological_no_self g d Htopo Hd).
    by rewrite <- Heq.
  - exact Hno.
  - exists (rewired (name n) p d). split; [|done].
    cbn [nodes]. apply (list_elem_of_fmap_2' _ _ d); [done|].
    by rewrite decide_True.
Qed.

Lemma apply_on_call_function_raises_witness :
  (topological [] (nodes Samples.gN) = true
   ∧ find_node Samples.gN "neg" = Some Samples.neg
   ∧ op Samples.neg = call_function
   ∧ all_input_nodes Samples.neg = ["x"]
   ∧ users Samples.gN "neg" = [mkNode "relu" call_module "relu" ["neg"]])
  ∧ ∃ g',
      NewRemover._apply (NewRemover.mkApplicationPoint "neg") Samples.gN
      = (Raise AttributeError, g')
      ∧ g' ≠ Samples.gN
      ∧ modules g' = modules Samples.gN
      ∧ Samples.neg ∈ nodes g'
      ∧ users g' "neg" = []
      ∧ ∃ d', d' ∈ nodes g' ∧ name d' = "relu"
              ∧ args d' = (λ a, if decide (a = "neg") then "x" else a)
                            <$> ["neg"].
Proof.
  assert (H1 : topological [] (nodes Samples.gN) = true) by reflexivity.
  assert (H2 : find_node Samples.gN "neg" = Some Samples.neg) by reflexivity.
  assert (H3 : op Samples.neg = call_function) by reflexivity.
  assert (H4 : all_input_nodes Samples.neg = ["x"]) by reflexivity.
  assert (H5 : users Samples.gN "neg"
               = [mkNode "relu" call_module "relu" ["neg"]]) by reflexivity.
  split; [exact (conj H1 (conj H2 (conj H3 (conj H4 H5))))|].
  exact (apply_on_call_function_raises Samples.gN "neg" Samples.neg "x" _
           H1 H2 H3 H4 H5).
Defined.

(** On [input -> neg -> ReLU -> output]: the graph that is left is
    [input -> ReLU -> output] with [neg] still in it. *)
Example apply_gN :
  NewRemover._apply (NewRemover.mkApplicationPoint "neg") Samples.gN
  = (Raise AttributeError,
     mkGraphModule
       [ mkNode "x" placeholder "x" [];
         Samples.neg;
         mkNode "relu" call_module "relu" ["x"];
         mkNode "output" output "output" ["relu"] ]
       {[ "relu" := Other ]}).
Proof. vm_compute. reflexivity. Qed.

End SpliceFacts.

(** ** What [EpsTunnelConstructApplier._apply] does besides *)

Section ConstructFacts.
Import Torch Fx Eff.

Lemma mapM_raise_any {A B} (f : A → M B) l e g x :
  (∀ y, y ∈ l → (∃ b, f y g = (Ok b, g)) ∨ f y g = (Raise e, g)) →
  x ∈ l → f x g = (Raise e, g) →
  mapM f l g = (Raise e, g).
Proof.
  induction l as [|y l IH]; intros Hf Hx Hr; [by apply elem_of_nil in Hx|].
  cbn [mapM].
  destruct (Hf y) as [[b Hb]|Hb]; [left| |by apply bind_raise].
  rewrite (bind_ok _ _ g b g Hb).
  apply elem_of_cons in Hx as [->|Hx]; [congruence|].
  apply bind_raise, IH; [|done..]. intros; apply Hf; by right.
Qed.

Lemma submodule_of_missing g n :
  modules g !! target n = None → submodule_of g n = None.
Proof. unfold submodule_of, target_of. by case_decide. Qed.

Lemma submodules_of_missing g l :
  nodes_exist g l → missing_target g l →
  Construct.submodules_of l g = (Raise AttributeError, g).
Proof.
  unfold nodes_exist, missing_target. rewrite Forall_forall, Exists_exists.
  intros Hex (x & Hx & Hmiss). unfold Construct.submodules_of.
  apply (mapM_raise_any _ _ AttributeError g x); [|done|].
  - intros y Hy. destruct (Hex y Hy) as [n Hn].
    rewrite (bind_ok _ _ g n g) by by apply node_ref_run.
    unfold bind. rewrite get_submodule_node.
    destruct (submodule_of g n); [left; eauto|by right].
  - destruct (find_node g x) as [n|] eqn:Hn; [|done].
    rewrite (bind_ok _ _ g n g) by by apply node_ref_run.
    unfold bind. rewrite get_submodule_node.
    by rewrite (submodule_of_missing g n Hmiss).
Qed.

(** When a node of [backward] calls a submodule that the graph module
    does not own, [_apply] raises [AttributeError] before it has changed
    anything: the modules are all looked up before the first is set. *)
Theorem construct_apply_missing_backward g ap :
  nodes_exist g (Construct.backward ap) →
  missing_target g (Construct.backward ap) →
  Construct._apply ap g = (Raise AttributeError, g).
Proof.
  intros Hex Hmiss. unfold Construct._apply.
  by apply bind_raise, submodules_of_missing.
Qed.

Lemma construct_apply_missing_backward_witness :
  (nodes_exist Samples.gG ["tunnel_g"] ∧ missing_target Samples.gG ["tunnel_g"])
  ∧ Construct._apply (Construct.mkConstruct ["tunnel_g"] []) Samples.gG
    = (Raise AttributeError, Samples.gG).
Proof.
  assert (H1 : nodes_exist Samples.gG ["tunnel_g"])
    by (apply (bool_decide_unpack _); vm_compute; exact I).
  assert (H2 : missing_target Samples.gG ["tunnel_g"])
    by (apply (bool_decide_unpack _); vm_compute; exact I).
  split; [exact (conj H1 H2)|].
  exact (construct_apply_missing_backward Samples.gG
           (Construct.mkConstruct ["tunnel_g"] []) H1 H2).
Defined.

(** When the nodes of [backward] are in order and a node of [forward]
    calls a submodule that the graph module does not own, [_apply] raises
    [AttributeError] after it has set [eps_out] of the inbound tunnels:
    the graph module it leaves is not the one it was given. *)
Theorem construct_apply_missing_forward g ap :
  tunnel_refs g (Construct.backward ap) →
  nodes_exist g (Construct.forward ap) →
  missing_target g (Construct.forward ap) →
  ∃ ms',
    Construct._apply ap g = (Raise AttributeError, mkGraphModule (nodes g) ms')
    ∧ (∀ t, ms' !! t
            = reconcile (targets g (Construct.backward ap)) [] t
              <$> modules g !! t)
    ∧ (∀ t, t ∈ targets g (Construct.backward ap) →
            ∃ ei eo, ms' !! t = Some (EpsTunnel ei eo) ∧ all_ones eo).
Proof.
  intros Hb Hex Hmiss.
  destruct (set_eps_out_loop (targets g (Construct.backward ap))
              (nodes g) (modules g)) as (ms1 & Hrun1 & Hms1).
  { intros t Ht. exact (targets_tunnels g _ t Hb Ht). }
  set (g1 := mkGraphModule (nodes g) ms1) in *.
  exists ms1. split_and!.
  - unfold Construct._apply.
    rewrite (bind_ok _ _ g _ g (submodules_of_run g _ Hb)).
    rewrite (bind_ok _ _ g tt g1) by (destruct g; exact Hrun1).
    apply bind_raise, submodules_of_missing.
    + exact Hex.
    + unfold missing_target in *. eapply Exists_impl; [exact Hmiss|].
      intros x. cbv beta. rewrite (find_node_same_nodes g ms1 x).
      destruct (find_node g x) as [n|]; [|done].
      intros Hnone. cbn [modules]. by rewrite Hms1, Hnone.
  - exact Hms1.
  - intros t Ht. destruct (targets_tunnels g _ t Hb Ht) as (ei & eo & Hl).
    rewrite Hms1, Hl. simpl. do 2 eexists. split; [done|].
    rewrite decide_True by done. apply all_ones_ones_like.
Qed.

Lemma construct_apply_missing_forward_witness :
  (tunnel_refs Samples.gH ["tunnel_c"]
   ∧ nodes_exist Samples.gH ["tunnel_g"]
   ∧ missing_target Samples.gH ["tunnel_g"])
  ∧ ∃ ms',
      Construct._apply (Construct.mkConstruct ["tunnel_c"] ["tunnel_g"])
        Samples.gH
      = (Raise AttributeError, mkGraphModule (nodes Samples.gH) ms')
      ∧ (∀ t, ms' !! t
              = reconcile (targets Samples.gH ["tunnel_c"]) [] t
                <$> modules Samples.gH !! t)
      ∧ (∀ t, t ∈ targets Samples.gH ["tunnel_c"] →
              ∃ ei eo, ms' !! t = Some (EpsTunnel ei eo) ∧ all_ones eo).
Proof.
  assert (H1 : tunnel_refs Samples.gH ["tunnel_c"])
    by (apply (bool_decide_unpack _); vm_compute; exact I).
  assert (H2 : nodes_exist Samples.gH ["tunnel_g"])
    by (apply (bool_decide_unpack _); vm_compute; exact I).
  assert (H3 : missing_target Samples.gH ["tunnel_g"])
    by (apply (bool_decide_unpack _); vm_compute; exact I).
  split; [exact (conj H1 (conj H2 H3))|].
  exact (construct_apply_missing_forward Samples.gH
           (Construct.mkConstruct ["tunnel_c"] ["tunnel_g"]) H1 H2 H3).
Defined.

(** In [gH] the inbound tunnel goes from [(0.5, 0.5)] to [(0.5, 1.0)]
    although [_apply] raises. *)
Example construct_apply_gH :
  Construct._apply (Construct.mkConstruct ["tunnel_c"] ["tunnel_g"]) Samples.gH
  = (Raise AttributeError,
     mkGraphModule (nodes Samples.gH)
       {[ "tunnel_c" := EpsTunnel (vec [half]) (vec [one]); "relu" := Other ]}).
Proof. vm_compute. reflexivity. Qed.

Lemma reconcile_idemp B F t m :
  reconcile B F t (reconcile B F t m) = reconcile B F t m.
Proof.
  destruct m as [ei eo|]; [|done]. unfold reconcile.
  by repeat case_decide; rewrite ?ones_like_idemp.
Qed.

(** [_apply] is idempotent: on the graph module it has produced it
    returns again and changes nothing. *)
Theorem construct_apply_idempotent g ap :
  tunnel_refs g (Construct.backward ap) →
  tunnel_refs g (Construct.forward ap) →
  ∃ g',
    Construct._apply ap g = (Ok tt, g')
    ∧ Construct._apply ap g' = (Ok tt, g').
Proof.
  intros Hb Hf.
  destruct (construct_apply_run g ap Hb Hf) as (ms' & Hrun & Hms').
  set (g' := mkGraphModule (nodes g) ms') in *.
  exists g'. split; [exact Hrun|].
  assert (Hrefs : ∀ l, tunnel_refs g l → tunnel_refs g' l)
    by (intros l; exact (tunnel_refs_reconciled g ms' _ _ l Hms')).
  destruct (construct_apply_run g' ap (Hrefs _ Hb) (Hrefs _ Hf))
    as (ms'' & Hrun' & Hms'').
  rewrite Hrun'. do 2 f_equal. unfold g'. f_equal.
  apply map_eq. intros t. rewrite Hms''.
  change (targets g' ?l) with (targets g l).
  change (modules g') with ms'. rewrite Hms'.
  destruct (modules g !! t) as [m|]; [|done]. simpl.
  by rewrite reconcile_idemp.
Qed.

Lemma construct_apply_idempotent_witness :
  (tunnel_refs Samples.gC ["tunnel_c"] ∧ tunnel_refs Samples.gC ["tunnel_d"])
  ∧ ∃ g',
      Construct._apply (Construct.mkConstruct ["tunnel_c"] ["tunnel_d"])
        Samples.gC = (Ok tt, g')
      ∧ Construct._apply (Construct.mkConstruct ["tunnel_c"] ["tunnel_d"]) g'
        = (Ok tt, g').
Proof.
  assert (H1 : tunnel_refs Samples.gC ["tunnel_c"])
    by (apply (bool_decide_unpack _); vm_compute; exact I).
  assert (H2 : tunnel_refs Samples.gC ["tunnel_d"])
    by (apply (bool_decide_unpack _); vm_compute; exact I).
  split; [exact (conj H1 H2)|].
  exact (construct_apply_idempotent Samples.gC
           (Construct.mkConstruct ["tunnel_c"] ["tunnel_d"]) H1 H2).
Defined.

Lemma is_integerised_placeholder_true g n :
  is_integerised_placeholder_node g n →
  Remover.is_integerised_placeholder n g = (Ok true, g).
Proof.
  intros [Hph [Hop Hm]]. unfold placeholder_input in Hph.
  destruct (all_input_nodes n) as [|p [|? ?]] eqn:Hin; try done.
  destruct (find_node g p) as [pn|] eqn:Hpn; [|done].
  destruct (modules g !! target n) as [[ei eo|]|] eqn:Hl; try done.
  unfold Remover.is_integerised_placeholder.
  rewrite (bind_ok _ _ g tt g)
    by (apply py_assert_true, bool_decide_eq_true_2; by rewrite Hin).
  rewrite Hin.
  rewrite (bind_ok _ _ g pn g) by by apply node_ref_run.
  rewrite (bind_ok _ _ g (EpsTunnel ei eo) g)
    by by rewrite get_submodule_call_module, Hl.
  rewrite bool_decide_eq_true_2 by done.
  unfold ret. apply all_ones_scalar in Hm. by rewrite Hm.
Qed.

(** After [_apply], every tunnel node of [backward] whose single input is
    a placeholder passes [is_integerised_placeholder]: reconciling a
    construct at the graph's input is what makes its inbound tunnel a
    candidate for removal. *)
Theorem construct_apply_integerises_placeholder g ap x n :
  tunnel_refs g (Construct.backward ap) →
  tunnel_refs g (Construct.forward ap) →
  x ∈ Construct.backward ap →
  find_node g x = Some n → op n = call_module →
  placeholder_input g n →
  ∃ g',
    Construct._apply ap g = (Ok tt, g')
    ∧ Remover.is_integerised_placeholder n g' = (Ok true, g').
Proof.
  intros Hb Hf Hx Hn Hop Hph.
  destruct (construct_apply_run g ap Hb Hf) as (ms' & Hrun & Hms').
  set (g' := mkGraphModule (nodes g) ms') in *.
  exists g'. split; [exact Hrun|].
  apply is_integerised_placeholder_true. split.
  - exact Hph.
  - split; [done|]. change (modules g') with ms'. rewrite Hms'.
    assert (target n ∈ targets g (Construct.backward ap)) as Ht.
    { apply elem_of_targets. eauto. }
    destruct (targets_tunnels g _ _ Hb Ht) as (ei & eo & Hl).
    rewrite Hl. simpl. rewrite (decide_True (P := target n ∈ _)) by done.
    apply all_ones_ones_like.
Qed.

Lemma construct_apply_integerises_placeholder_witness :
  (tunnel_refs Samples.gA ["tunnel_a"] ∧ tunnel_refs Samples.gA []
   ∧ "tunnel_a" ∈ ["tunnel_a"]
   ∧ find_node Samples.gA "tunnel_a" = Some Samples.tunnel_a
   ∧ op Samples.tunnel_a = call_module
   ∧ placeholder_input Samples.gA Samples.tunnel_a)
  ∧ ∃ g',
      Construct._apply (Construct.mkConstruct ["tunnel_a"] []) Samples.gA
      = (Ok tt, g')
      ∧ Remover.is_integerised_placeholder Samples.tunnel_a g' = (Ok true, g').
Proof.
  assert (H1 : tunnel_refs Samples.gA ["tunnel_a"])
    by (apply (bool_decide_unpack _); vm_compute; exact I).
  assert (H2 : tunnel_refs Samples.gA []) by constructor.
  assert (H3 : "tunnel_a" ∈ ["tunnel_a"]) by left.
  assert (H4 : find_node Samples.gA "tunnel_a" = Some Samples.tunnel_a)
    by reflexivity.
  assert (H5 : op Samples.tunnel_a = call_module) by reflexivity.
  assert (H6 : placeholder_input Samples.gA Samples.tunnel_a)
    by (apply (bool_decide_unpack _); vm_compute; exact I).
  split; [exact (conj H1 (conj H2 (conj H3 (conj H4 (conj H5 H6)))))|].
  exact (construct_apply_integerises_placeholder Samples.gA
           (Construct.mkConstruct ["tunnel_a"] []) "tunnel_a" Samples.tunnel_a
           H1 H2 H3 H4 H5 H6).
Defined.

End ConstructFacts.

(** ** The PACT layers *)

Section PactLayerFacts.

(** [assert_param_valid] builds its message before it tests the value:
    with an empty list of valid values it raises [IndexError] whatever the
    value; otherwise it returns exactly when the value is in the list, and
    else raises an [AssertionError] whose message begins with the class
    name, the name of the parameter and the value that was given. *)
Theorem assert_param_valid_outcome (cls value param_name : string)
    (valid_values : list string) :
  match Pact.assert_param_valid cls value param_name valid_values with
  | Pact.Ok _ => valid_values ≠ [] ∧ value ∈ valid_values
  | Pact.Raise Pact.IndexError => valid_values = []
  | Pact.Raise (Pact.AssertionError msg) =>
      valid_values ≠ [] ∧ (value ∉ valid_values)
      ∧ ∃ expected,
          msg = ("[" +:+ cls +:+ "]  Invalid argument " +:+ param_name
                 +:+ ": Got " +:+ value +:+ ", expected ") +:+ expected
  end.
Proof.
  unfold Pact.assert_param_valid, Pact.error_str.
  destruct valid_values as [|v [|w l]]; [done| |];
    case_bool_decide; split_and?; try done; eexists; reflexivity.
Qed.

Variable lower : string → string.

(** The constructor of [PACTAsymmetricAct] never returns.  With an
    [act_kind] or [init_clip] outside its list it raises the
    [AssertionError] of [assert_param_valid]; with valid arguments it
    raises [AttributeError], because it reads [self.alpha], an attribute
    that nothing has set. *)
Theorem PACTAsymmetricAct_never_constructs
    (n_levels : Z) (init_clip : string) (learn_clip : bool)
    (act_kind : string) (leaky : spec_float) (symm : bool)
    (nb_std : spec_float) :
  match (PactAsym.construct lower n_levels init_clip learn_clip act_kind
           leaky symm nb_std).1 with
  | PactAsym.Ok _ => False
  | PactAsym.Raise (PactAsym.AttributeError a) =>
      a = "alpha"
      ∧ lower act_kind ∈ valid_asym_act_kinds
      ∧ lower init_clip ∈ valid_init_clips
  | PactAsym.Raise (PactAsym.AssertionError _) =>
      ¬ (lower act_kind ∈ valid_asym_act_kinds
         ∧ lower init_clip ∈ valid_init_clips)
  | PactAsym.Raise PactAsym.IndexError => False
  end.
Proof.
  unfold PactAsym.construct, PactAsym.__init__.
  pose proof (assert_param_valid_spec "PACTAsymmetricAct" (lower act_kind)
                "act_kind" valid_asym_act_kinds) as Ha.
  pose proof (assert_param_valid_spec "PACTAsymmetricAct" (lower init_clip)
                "init_clip" valid_init_clips) as Hi.
  fold valid_asym_act_kinds valid_init_clips.
  unfold PactAsym.bind at 1, PactAsym.check at 1.
  destruct (Pact.assert_param_valid _ (lower act_kind) _ _) as [[]|ea].
  - unfold PactAsym.bind at 1, PactAsym.check at 1.
    destruct (Pact.assert_param_valid _ (lower init_clip) _ _) as [[]|ei].
    + specialize (Ha ltac:(done)). specialize (Hi ltac:(done)).
      vm_compute. done.
    + destruct (Hi ltac:(done)) as [Hni [msg ->]]. simpl. tauto.
  - destruct (Ha ltac:(done)) as [Hna [msg ->]]. simpl. tauto.
Qed.

Lemma concat_replicate_singleton {A} n (x : A) :
  concat (replicate n [x]) = replicate n x.
Proof. induction n as [|n IH]; [done|]. simpl. by rewrite IH. Qed.

Lemma sum_list_replicate n k : sum_list (replicate n k) = n * k.
Proof. induction n as [|n IH]; [done|]. simpl. rewrite IH. lia. Qed.

Lemma prod_of_cons n s : Torch.prod_of (n :: s) = n * Torch.prod_of s.
Proof. done. Qed.

Lemma reshape_ok t sh :
  Torch.prod_of sh = Torch.numel t →
  PactLayers.reshape t sh = Eff.Ok (Torch.mkTensor sh (Torch.data t)).
Proof. intros H. unfold PactLayers.reshape. by rewrite bool_decide_eq_true_2. Qed.

Lemma reshape_raise t sh :
  Torch.prod_of sh ≠ Torch.numel t →
  PactLayers.reshape t sh = Eff.Raise Eff.RuntimeError.
Proof. intros H. unfold PactLayers.reshape. by rewrite bool_decide_eq_false_2. Qed.

Lemma cat_replicate_one n x :
  0 < n →
  PactLayers.cat (replicate n (Torch.mkTensor [1] [x]))
  = Eff.Ok (Torch.mkTensor [n] (replicate n x)).
Proof.
  intros Hn. destruct n as [|n]; [lia|].
  change (PactLayers.cat (replicate (S n) (Torch.mkTensor [1] [x])))
    with (Eff.Ok (Torch.mkTensor
                    [sum_list (Torch.numel
                                 <$> replicate (S n) (Torch.mkTensor [1] [x]))]
                    (concat (Torch.data
                               <$> replicate (S n) (Torch.mkTensor [1] [x]))))).
  rewrite !fmap_replicate, sum_list_replicate. cbn [Torch.data].
  rewrite concat_replicate_singleton.
  do 3 f_equal. unfold Torch.numel. simpl. lia.
Qed.

Lemma expand_per_channel n trailing t :
  Torch.prod_of trailing = 1 → Torch.well_shaped t →
  match PactLayers.expand "per_channel" n trailing t with
  | Eff.Ok t' =>
      Torch.shape t' = n :: trailing
      ∧ Torch.well_shaped t'
      ∧ length (Torch.data t') = n
      ∧ (Torch.numel t = 1 →
         0 < n ∧ ∀ x, Torch.data t = [x] →
                      Torch.data t' = replicate n x)
      ∧ (Torch.numel t ≠ 1 →
         Torch.numel t = n ∧ Torch.data t' = Torch.data t)
  | Eff.Raise e =>
      e = Eff.RuntimeError
      ∧ ((Torch.numel t = 1 ∧ n = 0)
         ∨ (Torch.numel t ≠ 1 ∧ Torch.numel t ≠ n))
  end.
Proof.
  intros Htr Hws. unfold PactLayers.expand.
  rewrite bool_decide_eq_true_2 by done.
  assert (Hprod : Torch.prod_of (n :: trailing) = n)
    by (rewrite prod_of_cons, Htr; lia).
  destruct (decide (Torch.numel t = 1)) as [H1|H1].
  - rewrite (bool_decide_eq_true_2 _ H1).
    rewrite (reshape_ok t [1]) by by rewrite H1.
    unfold Torch.well_shaped in Hws. rewrite H1 in Hws.
    destruct (Torch.data t) as [|x [|? ?]] eqn:Hd; try done.
    destruct (decide (n = 0)) as [->|Hn].
    + simpl. split; [done|by left].
    + rewrite cat_replicate_one by lia.
      rewrite reshape_ok by (rewrite Hprod; unfold Torch.numel; simpl; lia).
      cbn [Torch.shape Torch.data]. rewrite length_replicate.
      split_and!; try done.
      * unfold Torch.well_shaped, Torch.numel.
        cbn [Torch.shape Torch.data].
        by rewrite Hprod, length_replicate.
      * intros _. split; [lia|]. by intros ? [= <-].
  - rewrite (bool_decide_eq_false_2 _ H1).
    destruct (decide (Torch.numel t = n)) as [Hn|Hn].
    + rewrite reshape_ok by by rewrite Hprod.
      cbn [Torch.shape Torch.data].
      unfold Torch.well_shaped in *. split_and!; try done.
      * unfold Torch.numel. cbn [Torch.shape].
        by rewrite Hprod, <- Hn.
      * by rewrite <- Hws.
    + rewrite reshape_raise by by rewrite Hprod.
      split; [done|]. by right.
Qed.

(** In per-channel mode the three [expand_bounds] methods turn a tensor
    of one element into one of [n] elements, each equal to it, of shape
    [(n, 1, ...)]; a tensor of [n] elements is only reshaped; any other
    tensor, and a single element when [n] is zero, is refused with
    [RuntimeError].  In any other mode the tensor is returned as it
    is. *)
Theorem expand_bounds_outcome f n t :
  f ∈ [PactLayers.PACTConv2d_expand_bounds;
       PactLayers.PACTConv1d_expand_bounds;
       PactLayers.PACTLinear_expand_bounds] →
  Torch.well_shaped t →
  match f "per_channel" n t with
  | Eff.Ok t' =>
      (∃ trailing, Torch.shape t' = n :: trailing
                   ∧ Torch.prod_of trailing = 1)
      ∧ Torch.well_shaped t'
      ∧ length (Torch.data t') = n
      ∧ (Torch.numel t = 1 →
         0 < n ∧ ∀ x, Torch.data t = [x] →
                      Torch.data t' = replicate n x)
      ∧ (Torch.numel t ≠ 1 →
         Torch.numel t = n ∧ Torch.data t' = Torch.data t)
  | Eff.Raise e =>
      e = Eff.RuntimeError
      ∧ ((Torch.numel t = 1 ∧ n = 0)
         ∨ (Torch.numel t ≠ 1 ∧ Torch.numel t ≠ n))
  end
  ∧ ∀ quantize, quantize ≠ "per_channel" → f quantize n t = Eff.Ok t.
Proof.
  intros Hf Hws.
  assert (∃ trailing, f = (λ q m, PactLayers.expand q m trailing)
                      ∧ Torch.prod_of trailing = 1)
    as (trailing & -> & Htr).
  { rewrite !elem_of_cons, elem_of_nil in Hf.
    destruct Hf as [->|[->|[->|[]]]]; eexists; split; reflexivity || done. }
  split.
  - pose proof (expand_per_channel n trailing t Htr Hws) as H.
    destruct (PactLayers.expand "per_channel" n trailing t); [|done].
    destruct H as (Hs & H). split; [eauto|done].
  - intros q Hq. unfold PactLayers.expand. by rewrite bool_decide_eq_false_2.
Qed.

Lemma expand_bounds_outcome_witness :
  (PactLayers.PACTConv2d_expand_bounds
   ∈ [PactLayers.PACTConv2d_expand_bounds;
      PactLayers.PACTConv1d_expand_bounds;
      PactLayers.PACTLinear_expand_bounds]
   ∧ Torch.well_shaped (Torch.mkTensor [] [PactAsym.minus_one]))
  ∧ match PactLayers.PACTConv2d_expand_bounds "per_channel" 3
            (Torch.mkTensor [] [PactAsym.minus_one]) with
    | Eff.Ok t' =>
        (∃ trailing, Torch.shape t' = 3 :: trailing
                     ∧ Torch.prod_of trailing = 1)
        ∧ Torch.well_shaped t'
        ∧ length (Torch.data t') = 3
        ∧ (Torch.numel (Torch.mkTensor [] [PactAsym.minus_one]) = 1 →
           0 < 3 ∧ ∀ x, [PactAsym.minus_one] = [x] →
                        Torch.data t' = replicate 3 x)
        ∧ (Torch.numel (Torch.mkTensor [] [PactAsym.minus_one]) ≠ 1 →
           Torch.numel (Torch.mkTensor [] [PactAsym.minus_one]) = 3
           ∧ Torch.data t' = [PactAsym.minus_one])
    | Eff.Raise e =>
        e = Eff.RuntimeError
        ∧ ((Torch.numel (Torch.mkTensor [] [PactAsym.minus_one]) = 1
            ∧ 3 = 0)
           ∨ (Torch.numel (Torch.mkTensor [] [PactAsym.minus_one]) ≠ 1
              ∧ Torch.numel (Torch.mkTensor [] [PactAsym.minus_one])
                ≠ 3))
    end
    ∧ ∀ quantize, quantize ≠ "per_channel" →
        PactLayers.PACTConv2d_expand_bounds quantize 3
          (Torch.mkTensor [] [PactAsym.minus_one])
        = Eff.Ok (Torch.mkTensor [] [PactAsym.minus_one]).
Proof.
  assert (H1 : PactLayers.PACTConv2d_expand_bounds
               ∈ [PactLayers.PACTConv2d_expand_bounds;
                  PactLayers.PACTConv1d_expand_bounds;
                  PactLayers.PACTLinear_expand_bounds]) by left.
  assert (H2 : Torch.well_shaped
                 (Torch.mkTensor [] [PactAsym.minus_one]))
    by reflexivity.
  split; [exact (conj H1 H2)|].
  exact (expand_bounds_outcome _ 3 _ H1 H2).
Defined.

(** The lower clipping bound of a layer with three output channels. *)
Example expand_bounds_conv2d :
  PactLayers.PACTConv2d_expand_bounds "per_channel" 3
    (Torch.mkTensor [] [PactAsym.minus_one])
  = Eff.Ok (Torch.mkTensor [3; 1; 1; 1]
              [PactAsym.minus_one; PactAsym.minus_one; PactAsym.minus_one]).
Proof. reflexivity. Qed.

(** [expand_bounds] is idempotent: a tensor that it has returned is
    returned as it is when expanded again. *)
Theorem expand_bounds_idempotent f quantize n t t' :
  f ∈ [PactLayers.PACTConv2d_expand_bounds;
       PactLayers.PACTConv1d_expand_bounds;
       PactLayers.PACTLinear_expand_bounds] →
  f quantize n t = Eff.Ok t' →
  f quantize n t' = Eff.Ok t'.
Proof.
  intros Hf.
  assert (∃ trailing, f = (λ q m, PactLayers.expand q m trailing)
                      ∧ Torch.prod_of trailing = 1)
    as (trailing & -> & Htr).
  { rewrite !elem_of_cons, elem_of_nil in Hf.
    destruct Hf as [->|[->|[->|[]]]]; eexists; split; reflexivity || done. }
  cbv beta. unfold PactLayers.expand.
  case_bool_decide as Hq; [|by intros [= <-]].
  assert (Hprod : Torch.prod_of (n :: trailing) = n)
    by (rewrite prod_of_cons, Htr; lia).
  intros Hex.
  assert (Torch.shape t' = n :: trailing) as Hshape.
  { destruct (if bool_decide (Torch.numel t = 1) then _ else _)
      as [t2|]; [|done].
    unfold PactLayers.reshape in Hex. case_bool_decide; [|done].
    by injection Hex as <-. }
  assert (Torch.numel t' = n) as Hnum.
  { unfold Torch.numel. by rewrite Hshape. }
  clear Hex. destruct t' as [sh d]. cbn in Hshape. subst sh.
  case_bool_decide as H1.
  - rewrite Hnum in H1. subst n.
    rewrite (reshape_ok _ [1]) by by rewrite Hnum.
    cbn [replicate PactLayers.cat Torch.data].
    rewrite reshape_ok by (rewrite Hprod; unfold Torch.numel; simpl; lia).
    cbn [Torch.data fmap list_fmap concat]. by rewrite app_nil_r.
  - by rewrite reshape_ok by by rewrite Hprod.
Qed.

Lemma expand_bounds_idempotent_witness :
  (PactLayers.PACTLinear_expand_bounds
   ∈ [PactLayers.PACTConv2d_expand_bounds;
      PactLayers.PACTConv1d_expand_bounds;
      PactLayers.PACTLinear_expand_bounds]
   ∧ PactLayers.PACTLinear_expand_bounds "per_channel" 2
       (Torch.mkTensor [] [Torch.one])
     = Eff.Ok (Torch.mkTensor [2; 1] [Torch.one; Torch.one]))
  ∧ PactLayers.PACTLinear_expand_bounds "per_channel" 2
      (Torch.mkTensor [2; 1] [Torch.one; Torch.one])
    = Eff.Ok (Torch.mkTensor [2; 1] [Torch.one; Torch.one]).
Proof.
  assert (H1 : PactLayers.PACTLinear_expand_bounds
               ∈ [PactLayers.PACTConv2d_expand_bounds;
                  PactLayers.PACTConv1d_expand_bounds;
                  PactLayers.PACTLinear_expand_bounds])
    by (right; right; left).
  assert (H2 : PactLayers.PACTLinear_expand_bounds "per_channel" 2
                 (Torch.mkTensor [] [Torch.one])
               = Eff.Ok (Torch.mkTensor [2; 1] [Torch.one; Torch.one]))
    by reflexivity.
  split; [exact (conj H1 H2)|].
  exact (expand_bounds_idempotent _ "per_channel" 2 _ _ H1 H2).
Defined.

End PactLayerFacts.

(** ** The tracers *)

Section TracingFacts.

Lemma isinstance_app m l1 l2 :
  Tracing.isinstance m (l1 ++ l2)
  = Tracing.isinstance m l1 || Tracing.isinstance m l2.
Proof. unfold Tracing.isinstance. apply existsb_app. Qed.

(** [CustomTracer] refuses exactly the empty tuple of leaf types, so
    [QuantLibTracer] is constructed whatever further leaf types it is
    given.  A module is a leaf for it when the base tracer says so, when
    it is an instance of one of quantlib's five leaf classes, or of one of
    the further ones; in particular every [EpsTunnel] is a leaf, whatever
    the base tracer says. *)
Theorem QuantLibTracer_leaves (other_leaf_types : list string)
    (base : Tracing.NnModule → string → bool) :
  (∀ leaf_types,
     Tracing.CustomTracer_init leaf_types = Tracing.Raise Tracing.ValueError
     ↔ leaf_types = [])
  ∧ ∃ tr,
      Tracing.QuantLibTracer_init other_leaf_types = Tracing.Ok tr
      ∧ (∀ m nm,
           Tracing.is_leaf_module base tr m nm
           = base m nm
             || Tracing.isinstance m Tracing.quantlib_leaf_types
             || Tracing.isinstance m other_leaf_types)
      ∧ (∀ m nm, "EpsTunnel" ∈ Tracing.mro m →
                 Tracing.is_leaf_module base tr m nm = true).
Proof.
  split.
  - intros l. unfold Tracing.CustomTracer_init.
    case_bool_decide as Hl.
    + split; [|done]. intros _. by destruct l.
    + split; [done|]. by intros ->.
  - exists (Tracing.mkCustomTracer
              (Tracing.quantlib_leaf_types ++ other_leaf_types)).
    split_and!.
    + done.
    + intros m nm. unfold Tracing.is_leaf_module.
      cbn [Tracing._leaf_types].
      by rewrite isinstance_app, orb_assoc.
    + intros m nm Hm. unfold Tracing.is_leaf_module.
      cbn [Tracing._leaf_types]. rewrite isinstance_app.
      assert (Tracing.isinstance m Tracing.quantlib_leaf_types = true) as ->.
      { unfold Tracing.isinstance, Tracing.quantlib_leaf_types.
        cbn [existsb]. rewrite (bool_decide_eq_true_2 _ Hm).
        by rewrite orb_true_r. }
      by rewrite orb_true_r.
Qed.

Context {V R : Type}.
Variable trace_body : V → V → V → R.
Variable type_error : R.
Variable none : V.
Variable the_tracer : V.

(** [quantlib_symbolic_trace] has its tracer bound by keyword, so every
    call that passes an argument by position fails with [TypeError]: the
    first positional argument would be the tracer a second time. *)
Theorem quantlib_symbolic_trace_positional (pos : list V)
    (kw : gmap string V) :
  pos ≠ [] →
  Tracing.quantlib_symbolic_trace V R trace_body type_error none the_tracer
    pos kw = type_error.
Proof.
  intros Hpos. destruct pos as [|v pos]; [done|].
  unfold Tracing.quantlib_symbolic_trace, Tracing.partial,
    Tracing.custom_symbolic_trace.
  assert (Tracing.bind_args V ["tracer"; "root"; "concrete_args"]
            {[ "concrete_args" := none ]} (v :: pos)
            (kw ∪ {[ "tracer" := the_tracer ]}) = None) as ->; [|done].
  unfold Tracing.bind_args. case_bool_decide as Hlen; [|done].
  case_bool_decide as Hsub; [|done]. cbn [andb].
  case_bool_decide as Hdisj; [exfalso|done].
  apply (Hdisj "tracer").
  - apply elem_of_dom. rewrite lookup_union.
    rewrite lookup_singleton_eq. by destruct (kw !! "tracer").
  - apply elem_of_dom. cbn [zip zip_with list_to_map foldr].
    rewrite lookup_insert_eq. done.
Qed.

Lemma bind_args_nil_Some params (defaults kw : gmap string V) :
  dom kw ⊆@{gset string} list_to_set params →
  list_to_set params ⊆@{gset string} dom (kw ∪ defaults) →
  Tracing.bind_args V params defaults [] kw = Some (∅ ∪ kw ∪ defaults).
Proof.
  intros Hsub Hall. unfold Tracing.bind_args.
  assert (Hz : zip params ([] : list V) = []) by by destruct params.
  rewrite Hz. cbn [list_to_map foldr].
  assert (Heq : (∅ : gmap string V) ∪ kw = kw) by apply (left_id_L ∅ (∪)).
  rewrite <- Heq in Hall.
  repeat case_bool_decide; cbn [andb]; try done; exfalso;
    match goal with
    | H : ¬ (length _ ≤ length _) |- _ => apply H; simpl; lia
    | H : ¬ (_ ##@{gset string} _) |- _ =>
        apply H; rewrite dom_empty_L; apply disjoint_empty_r
    end.
Qed.

Lemma bind_args_nil_None params (defaults kw : gmap string V) :
  ¬ (dom kw ⊆@{gset string} list_to_set params
     ∧ list_to_set params ⊆@{gset string} dom (kw ∪ defaults)) →
  Tracing.bind_args V params defaults [] kw = None.
Proof.
  intros Hn. unfold Tracing.bind_args.
  assert (Hz : zip params ([] : list V) = []) by by destruct params.
  rewrite Hz. cbn [list_to_map foldr].
  assert (Heq : (∅ : gmap string V) ∪ kw = kw) by apply (left_id_L ∅ (∪)).
  repeat case_bool_decide; cbn [andb]; try done.
  exfalso. apply Hn. split; [done|]. by rewrite <- Heq.
Qed.

(** Called with keywords only, [quantlib_symbolic_trace] runs the body
    exactly when [root] is given and every keyword names a parameter; a
    [tracer] keyword takes the place of the stored tracer, and
    [concrete_args] is [None] unless given. *)
Theorem quantlib_symbolic_trace_keywords (kw : gmap string V) :
  Tracing.quantlib_symbolic_trace V R trace_body type_error none the_tracer
    [] kw
  = match kw !! "root" with
    | Some root =>
        if bool_decide (dom kw ⊆@{gset string}
                        list_to_set ["tracer"; "root"; "concrete_args"])
        then trace_body (default the_tracer (kw !! "tracer")) root
                        (default none (kw !! "concrete_args"))
        else type_error
    | None => type_error
    end.
Proof.
  unfold Tracing.quantlib_symbolic_trace, Tracing.partial,
    Tracing.custom_symbolic_trace.
  set (params := ["tracer"; "root"; "concrete_args"]).
  set (kw' := kw ∪ {[ "tracer" := the_tracer ]}).
  set (defaults := ({[ "concrete_args" := none ]} : gmap string V)).
  assert (Hdom : dom kw' = dom kw ∪ ({[ "tracer" ]} : gset string))
    by (unfold kw'; by rewrite dom_union_L, dom_singleton_L).
  assert (Hsub_iff : dom kw' ⊆@{gset string} list_to_set params
                     ↔ dom kw ⊆@{gset string} list_to_set params).
  { rewrite Hdom. split.
    - intros H x Hx. apply H, elem_of_union. by left.
    - intros H x [Hx|Hx%elem_of_singleton]%elem_of_union; [by apply H|].
      subst x. apply elem_of_list_to_set. left. }
  assert (Hall_iff : list_to_set params ⊆@{gset string} dom (kw' ∪ defaults)
                     ↔ is_Some (kw !! "root")).
  { split.
    - intros H. assert ("root" ∈ dom (kw' ∪ defaults)) as Hr
        by (apply H, elem_of_list_to_set; right; left).
      apply elem_of_dom in Hr. unfold kw', defaults in Hr.
      rewrite !lookup_union, !lookup_singleton in Hr.
      repeat case_decide; try done.
      by destruct (kw !! "root"); [eauto|destruct Hr].
    - intros [r Hr] x Hx%elem_of_list_to_set. apply elem_of_dom.
      unfold kw', defaults. rewrite !lookup_union, !lookup_singleton.
      unfold params in Hx. rewrite !elem_of_cons, elem_of_nil in Hx.
      destruct Hx as [->|[->|[->|[]]]]; repeat case_decide; try done.
      + by destruct (kw !! "tracer").
      + by rewrite Hr.
      + by destruct (kw !! "concrete_args"). }
  destruct (kw !! "root") as [root|] eqn:Hroot.
  - destruct (decide (dom kw ⊆@{gset string} list_to_set params))
      as [Hsub|Hsub].
    + rewrite (bool_decide_eq_true_2 _ Hsub).
      rewrite bind_args_nil_Some by (by apply Hsub_iff || by apply Hall_iff).
      unfold kw', defaults.
      rewrite !lookup_union, !lookup_empty, !lookup_singleton, Hroot.
      repeat case_decide; try done.
      destruct (kw !! "tracer"), (kw !! "concrete_args"); done.
    + rewrite (bool_decide_eq_false_2 _ Hsub).
      rewrite bind_args_nil_None; [done|]. intros [H _]. by apply Hsub, Hsub_iff.
  - rewrite bind_args_nil_None; [done|]. intros [_ H].
    apply Hall_iff in H. by destruct H.
Qed.

End TracingFacts.

Lemma quantlib_symbolic_trace_positional_witness :
  [5] ≠ ([] : list nat)
  ∧ Tracing.quantlib_symbolic_trace nat (option nat)
      (λ tracer root concrete_args, Some (tracer + root + concrete_args))
      None 0 7 [5] ∅
    = None.
Proof.
  assert (H : [5] ≠ ([] : list nat)) by discriminate.
  split; [exact H|].
  exact (quantlib_symbolic_trace_positional
           (λ tracer root concrete_args, Some (tracer + root + concrete_args))
           None 0 7 [5] ∅ H).
Defined.
